(** * hacker-news-reel: cache, resilient fetch and comment-tree materializer

    A shallow embedding of [src/cache.ts] (the SWR/LRU cache), of
    [src/utilities.ts] ([calculateBackoff], [fetchWithRetry]), of
    [src/errors.ts] ([RateLimitError]), of [src/hooks.ts] (the hooks
    manager) and of [clientFetch] and [getItemWithComments] from
    [src/api.ts], followed by the properties stated about them.

    Conventions.  Clock readings ([Date.now()]) are integers ([Z]); counts
    ([maxRetries], [maxEntries], [maxDepth], HTTP statuses) are naturals;
    strings are sequences of code units below 256, which is what the value
    of a header and a status text are.  Delays are rationals ([Q]): they
    stand for the doubles that the code passes to [setTimeout], and no
    property below depends on the arithmetic that produces them. *)

From Stdlib Require Import List ZArith QArith Qpower Qminmax Lia Bool Arith.
From Stdlib Require Import String Ascii DecimalString DecimalNat Sorted Permutation.
From stdpp Require Import gmap strings.

Import ListNotations.
Local Open Scope string_scope.
Local Open Scope list_scope.

(* ===================================================================== *)
(** * Part I: definitions                                                  *)
(* ===================================================================== *)

(** ** JavaScript values used by the retry code *)
Module Js.

(** The result of [parseInt]: a number or [NaN]. *)
Inductive jsnum : Type :=
| NaN
| Num (z : Z).

(** The white space and line terminators of ECMAScript among the code
    units below 256: TAB, LF, VT, FF, CR, SP and NBSP. *)
Definition isWhitespace (c : ascii) : bool :=
  let n := nat_of_ascii c in
  (n =? 32)%nat || ((9 <=? n)%nat && (n <=? 13)%nat) || (n =? 160)%nat.

Definition digitValue (c : ascii) : option Z :=
  let n := nat_of_ascii c in
  if ((48 <=? n)%nat && (n <=? 57)%nat)%bool then Some (Z.of_nat (n - 48)) else None.

Fixpoint skipWhitespace (s : string) : string :=
  match s with
  | String c rest => if isWhitespace c then skipWhitespace rest else s
  | EmptyString => s
  end.

(** Longest prefix of decimal digits, accumulated left to right; [None] when
    the string does not start with a digit. *)
Fixpoint digitsFrom (acc : option Z) (s : string) : option Z :=
  match s with
  | String c rest =>
      match digitValue c with
      | Some d =>
          digitsFrom (Some (10 * (match acc with Some a => a | None => 0 end) + d)%Z) rest
      | None => acc
      end
  | EmptyString => acc
  end.

(** [parseInt(s, 10)]: leading white space is skipped, one sign is accepted,
    the digits that follow are read and the rest is ignored; no digit gives
    [NaN].  The integer read is kept as it is; JavaScript rounds it to a
    double, which is the same number up to 2^53. *)
Definition parseInt (s : string) : jsnum :=
  match skipWhitespace s with
  | String "-" rest =>
      match digitsFrom None rest with Some z => Num (- z) | None => NaN end
  | String "+" rest =>
      match digitsFrom None rest with Some z => Num z | None => NaN end
  | t => match digitsFrom None t with Some z => Num z | None => NaN end
  end.

(** [hay.includes(needle)]. *)
Fixpoint includes (needle hay : string) : bool :=
  String.prefix needle hay ||
  match hay with
  | String _ rest => includes needle rest
  | EmptyString => false
  end.

(** Decimal rendering of a number inside a template string. *)
Definition showNat (n : nat) : string := NilEmpty.string_of_uint (Nat.to_uint n).

End Js.

(** ** [src/errors.ts] and the transport boundary *)
Module Errors.
Import Js.

(** What the code reads of a [Response]: [response.ok], [response.status],
    [response.statusText] and [response.headers.get('Retry-After')]
    ([None] is the [null] of a missing header). *)
Record Response : Type := mkResponse {
  ok : bool;
  status : nat;
  statusText : string;
  retryAfterHeader : option string
}.

(** [new Response(null, { status, statusText, headers })] of the Fetch API:
    [ok] holds exactly for the statuses 200 to 299. *)
Definition Response_new (st : nat) (text : string) (retryAfter : option string) : Response :=
  {| ok := (200 <=? st)%nat && (st <=? 299)%nat;
     status := st;
     statusText := text;
     retryAfterHeader := retryAfter |}.

(** A JavaScript string is truthy when it is not empty. *)
Definition truthyHeader (h : option string) : option string :=
  match h with
  | Some EmptyString => None
  | Some s => Some s
  | None => None
  end.

(** The values that are thrown: the classes the code tells apart by
    [instanceof] and [name].  [Undefined] is the initial [lastError]. *)
Inductive Thrown : Type :=
| DOMException (message name : string)
| TypeError (message : string)
| Error (message : string)
| RateLimitError (message : string) (status : nat)
                 (retryAfterSeconds : option jsnum) (response : Response)
| Undefined.

(** The constructor of [RateLimitError]: the status is the response's, and
    [retryAfterSeconds] is set only when the header is present and not
    empty. *)
Definition RateLimitError_new (message : string) (response : Response) : Thrown :=
  RateLimitError message (status response)
    (match truthyHeader (retryAfterHeader response) with
     | Some h => Some (parseInt h)
     | None => None
     end)
    response.

End Errors.

(** ** [src/utilities.ts] *)
Module Utilities.
Import Js Errors.

(** [RetryOptions]: every field may be left out. *)
Record RetryOptions : Type := mkRetryOptions {
  o_maxRetries : option nat;
  o_initialBackoff : option Q;
  o_maxBackoff : option Q;
  o_jitter : option Q;
  o_retryableStatusCodes : option (list nat);
  o_retryNetworkErrors : option bool;
  o_backoffFactor : option Q
}.

(** [Required<RetryOptions>]. *)
Record RequiredRetryOptions : Type := mkRequired {
  maxRetries : nat;
  initialBackoff : Q;
  maxBackoff : Q;
  jitter : Q;
  retryableStatusCodes : list nat;
  retryNetworkErrors : bool;
  backoffFactor : Q
}.

Definition DEFAULT_RETRY_OPTIONS : RequiredRetryOptions :=
  {| maxRetries := 3;
     initialBackoff := 300%Q;
     maxBackoff := 10000%Q;
     jitter := (2 # 10)%Q;
     retryableStatusCodes := [429; 500; 502; 503; 504]%nat;
     retryNetworkErrors := true;
     backoffFactor := 2%Q |}.

(** [{ ...DEFAULT_RETRY_OPTIONS, ...options }], for an options object whose
    fields are left out or hold a value of their type, [maxRetries] a
    natural number. *)
Definition mergeOptions (d : RequiredRetryOptions) (o : RetryOptions) : RequiredRetryOptions :=
  {| maxRetries := default (maxRetries d) (o_maxRetries o);
     initialBackoff := default (initialBackoff d) (o_initialBackoff o);
     maxBackoff := default (maxBackoff d) (o_maxBackoff o);
     jitter := default (jitter d) (o_jitter o);
     retryableStatusCodes := default (retryableStatusCodes d) (o_retryableStatusCodes o);
     retryNetworkErrors := default (retryNetworkErrors d) (o_retryNetworkErrors o);
     backoffFactor := default (backoffFactor d) (o_backoffFactor o) |}.

(** The empty options object, which is also what [undefined] spreads to. *)
Definition noOptions : RetryOptions :=
  mkRetryOptions None None None None None None None.

Definition isNetworkError (error : Thrown) : bool :=
  match error with
  | TypeError message =>
      includes "Failed to fetch" message || includes "Network request failed" message
  | _ => false
  end.

(** [calculateBackoff(attempt, options)]; [random] is the value that
    [Math.random()] returns in this call.  The operations are those of the
    code, carried out on rationals; the code carries them out on doubles,
    with their rounding, overflow and [NaN].  The delay is only ever used as
    the label of a sleep. *)
Definition calculateBackoff (attempt : nat) (options : RequiredRetryOptions) (random : Q) : Q :=
  let backoff := (initialBackoff options * backoffFactor options ^ Z.of_nat attempt)%Q in
  let randomFactor := (1 - jitter options + random * (2 * jitter options))%Q in
  let backoff := (backoff * randomFactor)%Q in
  Qmin backoff (maxBackoff options).

(** *** The world [fetchWithRetry] runs in

    The transport ([fetch]) answers its [i]-th call with a response or by
    throwing; [Math.random()] yields its [i]-th draw; the abort plan says when
    [controller.abort()] is called, relative to the awaits of the run. *)
Inductive FetchOutcome : Type :=
| Returns (response : Response)
| Throws (error : Thrown).

Inductive AbortPlan : Type :=
| NoAbort                  (* no signal, or one that is never aborted *)
| AbortedBefore            (* already aborted when [fetchWithRetry] is called *)
| AbortDuring (i : nat).   (* aborted while the [i]-th await (from 0) is pending *)

Record Env : Type := mkEnv {
  transport : nat -> FetchOutcome;
  mathRandom : nat -> Q;
  abortPlan : AbortPlan
}.

(** The awaits of a run, in order: transport calls and sleeps. *)
Inductive Event : Type :=
| EvFetch
| EvSleep (ms : Q).

Record Run : Type := mkRun {
  trace : list Event;   (* awaits started so far *)
  calls : nat;          (* transport calls made so far *)
  draws : nat;          (* [Math.random()] draws made so far *)
  lastError : Thrown    (* the variable [lastError] *)
}.

Definition initialRun : Run :=
  {| trace := []; calls := 0; draws := 0; lastError := Undefined |}.

(** Whether [signal.aborted] reads true once [tick] awaits have completed.
    The local flag [aborted] is set by the listener when the signal fires, so
    [aborted || init?.signal?.aborted] reads the same. *)
Definition signalAborted (plan : AbortPlan) (tick : nat) : bool :=
  match plan with
  | NoAbort => false
  | AbortedBefore => true
  | AbortDuring i => (i <? tick)%nat
  end.

Definition abortError : Thrown :=
  DOMException "The operation was aborted." "AbortError".

(** [error instanceof DOMException && error.name === 'AbortError']. *)
Definition isAbortError (error : Thrown) : bool :=
  match error with
  | DOMException _ name => String.eqb name "AbortError"
  | _ => false
  end.

(** *** A state-and-exception monad for the body of [fetchWithRetry] *)
Inductive Completion (A : Type) : Type :=
| Normal (a : A)
| Abrupt (error : Thrown).
Arguments Normal {A} a.
Arguments Abrupt {A} error.

Definition M (A : Type) : Type := Run -> Completion A * Run.

Definition ret {A : Type} (a : A) : M A := fun run => (Normal a, run).

Definition throw {A : Type} (error : Thrown) : M A := fun run => (Abrupt error, run).

Definition bind {A B : Type} (m : M A) (k : A -> M B) : M B :=
  fun run =>
    match m run with
    | (Normal a, run') => k a run'
    | (Abrupt error, run') => (Abrupt error, run')
    end.

Definition tryCatch {A : Type} (m : M A) (handler : Thrown -> M A) : M A :=
  fun run =>
    match m run with
    | (Normal a, run') => (Normal a, run')
    | (Abrupt error, run') => handler error run'
    end.

Notation "'let*' x := m 'in' k" := (bind m (fun x => k))
  (at level 10, x name, m at level 100, k at level 200).
Notation "m >> k" := (bind m (fun _ => k))
  (at level 100, k at level 200, right associativity).

Section FetchWithRetry.

Variable env : Env.

Definition throwIfAborted : M unit :=
  fun run =>
    if signalAborted (abortPlan env) (List.length (trace run))
    then (Abrupt abortError, run)
    else (Normal tt, run).

(** [await sleep(ms)]. *)
Definition sleep (ms : Q) : M unit :=
  fun run =>
    (Normal tt,
     {| trace := trace run ++ [EvSleep ms]; calls := calls run;
        draws := draws run; lastError := lastError run |}).

(** [await fetch(input, init)]. *)
Definition fetch : M Response :=
  fun run =>
    let run' := {| trace := trace run ++ [EvFetch]; calls := S (calls run);
                   draws := draws run; lastError := lastError run |} in
    match transport env (calls run) with
    | Returns response => (Normal response, run')
    | Throws error => (Abrupt error, run')
    end.

Definition random : M Q :=
  fun run =>
    (Normal (mathRandom env (draws run)),
     {| trace := trace run; calls := calls run;
        draws := S (draws run); lastError := lastError run |}).

Definition setLastError (error : Thrown) : M unit :=
  fun run =>
    (Normal tt,
     {| trace := trace run; calls := calls run;
        draws := draws run; lastError := error |}).

Definition getLastError : M Thrown := fun run => (Normal (lastError run), run).

(** [parseInt(retryAfter, 10) * 1000], kept when
    [!isNaN(waitTime) && waitTime > 0]. *)
Definition retryAfterWait (retryAfter : string) : option Q :=
  match parseInt retryAfter with
  | Num seconds => if (0 <? seconds * 1000)%Z then Some (inject_Z (seconds * 1000)) else None
  | NaN => None
  end.

Variable retryOptions : RequiredRetryOptions.

(** The [try] block of one iteration.  [Some response] is [return response];
    [None] is the end of the block or [continue]: both go on to
    [attempt++]. *)
Definition tryBlock (attempt : nat) : M (option Response) :=
  throwIfAborted >>
  (if (0 <? attempt)%nat then
     let* r := random in
     sleep (calculateBackoff (attempt - 1) retryOptions r) >>
     throwIfAborted
   else ret tt) >>
  let* response := fetch in
  if ok response then ret (Some response)
  else if negb (existsb (Nat.eqb (status response)) (retryableStatusCodes retryOptions)) then
    throw (Error ("Request failed with status " ++ showNat (status response)
                  ++ ": " ++ statusText response))
  else if (maxRetries retryOptions <=? attempt)%nat && (status response =? 429)%nat then
    throw (RateLimitError_new
             ("Rate limit exceeded with status code " ++ showNat (status response)
              ++ ". Check retryAfterSeconds for wait time.")
             response)
  else if (attempt <? maxRetries retryOptions)%nat then
    setLastError (Error ("Received status code " ++ showNat (status response)
                         ++ ", retrying (" ++ showNat (attempt + 1) ++ "/"
                         ++ showNat (maxRetries retryOptions) ++ ")")) >>
    match truthyHeader (retryAfterHeader response) with
    | Some retryAfter =>
        match retryAfterWait retryAfter with
        | Some waitTime =>
            throwIfAborted >> sleep waitTime >> throwIfAborted >> ret None
        | None => ret None
        end
    | None => ret None
    end
  else
    throw (Error ("Request failed with status " ++ showNat (status response)
                  ++ " after " ++ showNat (maxRetries retryOptions) ++ " retries")).

(** The [catch] clause of one iteration. *)
Definition catchClause (attempt : nat) (error : Thrown) : M (option Response) :=
  setLastError error >>
  if isAbortError error then throw error
  else if negb (retryNetworkErrors retryOptions) || negb (isNetworkError error) then
    throw error
  else if (attempt <? maxRetries retryOptions)%nat then ret None
  else throw error.

(** The [for] loop, [attempt] running up to [maxRetries]; [left] is the
    number of iterations that remain, [maxRetries + 1 - attempt], so
    [left = 0] is the exit [attempt > maxRetries], after which the code
    throws [lastError]. *)
Fixpoint retryLoop (left attempt : nat) : M Response :=
  match left with
  | O => let* error := getLastError in throw error
  | S left' =>
      let* r := tryCatch (tryBlock attempt) (catchClause attempt) in
      match r with
      | Some response => ret response
      | None => retryLoop left' (S attempt)
      end
  end.

End FetchWithRetry.

(** The third argument of [fetchWithRetry]: [false], or an options object
    ([undefined] being the empty one). *)
Inductive RetryArg : Type :=
| RetryDisabled
| RetryWith (options : RetryOptions).

Definition fetchWithRetry (env : Env) (options : RetryArg) : M Response :=
  throwIfAborted env >>
  match options with
  | RetryDisabled => fetch env
  | RetryWith o =>
      let retryOptions := mergeOptions DEFAULT_RETRY_OPTIONS o in
      retryLoop env retryOptions (S (maxRetries retryOptions)) 0
  end.

End Utilities.

(** ** [src/cache.ts] *)
Module CacheModel.

Section Cache.

(** [T] is the type of the cached data, [E] the type of the reasons loaders
    reject with, and [Loader] names the functions passed as [fetchFn]: the
    cache only ever invokes them and awaits what they return. *)
Context {T E Loader : Type}.

Record CacheEntry : Type := mkEntry {
  data : T;
  timestamp : Z;
  lastAccessed : Z
}.

Record CacheOptions : Type := mkOptions {
  maxAge : Z;
  staleWhileRevalidate : Z;
  maxEntries : option nat   (* [None]: [undefined] *)
}.

(** *** The JavaScript [Map] holding the entries

    A [Map] iterates in insertion order, and the eviction sorts what it
    iterates: the entries are kept as an association list in that order. *)
Definition EntryMap : Type := list (string * CacheEntry).

Fixpoint mapGet (key : string) (m : EntryMap) : option CacheEntry :=
  match m with
  | [] => None
  | (k, v) :: rest => if String.eqb k key then Some v else mapGet key rest
  end.

(** [Map.prototype.set]: an existing key keeps its position, a new one goes
    last. *)
Fixpoint mapSet (key : string) (value : CacheEntry) (m : EntryMap) : EntryMap :=
  match m with
  | [] => [(key, value)]
  | (k, v) :: rest =>
      if String.eqb k key then (k, value) :: rest else (k, v) :: mapSet key value rest
  end.

Definition mapDelete (key : string) (m : EntryMap) : EntryMap :=
  List.filter (fun kv => negb (String.eqb (fst kv) key)) m.

Definition mapHas (key : string) (m : EntryMap) : bool :=
  match mapGet key m with Some _ => true | None => false end.

(** *** [evictLRUIfNeeded] *)

(** [Array.prototype.sort] with the comparator
    [(a, b) => a.lastAccessed - b.lastAccessed]: the sort is stable, so on
    integer keys its result is the one of this insertion sort. *)
Fixpoint insertByLastAccessed (x : string * Z) (sorted : list (string * Z)) : list (string * Z) :=
  match sorted with
  | [] => [x]
  | y :: rest =>
      if (snd x <=? snd y)%Z then x :: y :: rest
      else y :: insertByLastAccessed x rest
  end.

Fixpoint sortByLastAccessed (entries : list (string * Z)) : list (string * Z) :=
  match entries with
  | [] => []
  | x :: rest => insertByLastAccessed x (sortByLastAccessed rest)
  end.

(** Every entry the cache writes carries [lastAccessed], so the fallback to
    [timestamp] for an undefined [lastAccessed] is never taken.  [!maxEntries]
    holds for [undefined] and for 0. *)
Definition evictLRUIfNeeded (options : CacheOptions) (m : EntryMap) : EntryMap :=
  match maxEntries options with
  | None => m
  | Some maxEntries =>
      if (maxEntries =? 0)%nat || (List.length m <=? maxEntries)%nat then m
      else
        let entriesToRemove := (List.length m - maxEntries)%nat in
        let entries :=
          sortByLastAccessed (List.map (fun kv => (fst kv, lastAccessed (snd kv))) m) in
        List.fold_left (fun acc entry => mapDelete (fst entry) acc)
          (List.firstn entriesToRemove entries) m
  end.

(** *** The cache object and the promises around it

    Promises are numbered.  [inflight] holds the suspended bodies of
    [fetchAndCache], each awaiting what its loader returned; [settled] holds
    the promises [fetchAndCache] returned once they are settled;
    [catchQueue] holds the [.catch] callbacks of rejected background
    refreshes that have not run yet; [loaderCalls] logs every invocation of
    a loader. *)
Inductive Settlement : Type :=
| Fulfilled (value : T)
| Rejected (reason : E).

Record Task : Type := mkTask {
  taskKey : string;
  taskBackground : bool   (* started by [refreshInBackground] *)
}.

Record Cache : Type := mkCache {
  options : CacheOptions;
  cache : EntryMap;
  fetchPromises : gmap string nat;
  inflight : gmap nat Task;
  settled : gmap nat Settlement;
  catchQueue : list string;
  nextPromise : nat;
  loaderCalls : list (string * Loader)
}.

(** [new Cache(options)], the options being already merged with the
    defaults. *)
Definition newCache (opts : CacheOptions) : Cache :=
  {| options := opts; cache := []; fetchPromises := ∅; inflight := ∅; settled := ∅;
     catchQueue := []; nextPromise := 0; loaderCalls := [] |}.

Definition withCache (c : Cache) (m : EntryMap) : Cache :=
  {| options := options c; cache := m; fetchPromises := fetchPromises c;
     inflight := inflight c; settled := settled c; catchQueue := catchQueue c;
     nextPromise := nextPromise c; loaderCalls := loaderCalls c |}.

Definition withFetchPromises (c : Cache) (fp : gmap string nat) : Cache :=
  {| options := options c; cache := cache c; fetchPromises := fp;
     inflight := inflight c; settled := settled c; catchQueue := catchQueue c;
     nextPromise := nextPromise c; loaderCalls := loaderCalls c |}.

(** [fetchAndCache(key, fetchFn)] up to its return: the body starts, invokes
    the loader and suspends on what it returned; the promise of the body is
    then stored under [key] and returned.  The loader returns a promise, as
    the [async] loaders of [src/api.ts] do. *)
Definition fetchAndCache (key : string) (fetchFn : Loader) (background : bool)
    (c : Cache) : nat * Cache :=
  let fetchPromise := nextPromise c in
  (fetchPromise,
   {| options := options c;
      cache := cache c;
      fetchPromises := <[key := fetchPromise]> (fetchPromises c);
      inflight := <[fetchPromise := mkTask key background]> (inflight c);
      settled := settled c;
      catchQueue := catchQueue c;
      nextPromise := S fetchPromise;
      loaderCalls := loaderCalls c ++ [(key, fetchFn)] |}).

(** [refreshInBackground(key, fetchFn)]: the same, with a [.catch] callback
    attached to the returned promise. *)
Definition refreshInBackground (key : string) (fetchFn : Loader) (c : Cache) : Cache :=
  snd (fetchAndCache key fetchFn true c).

(** What a call of [get] or [refresh] hands to its caller: a value at once,
    or the promise of a load. *)
Inductive GetResult : Type :=
| Resolved (value : T)
| Awaits (promise : nat).

Definition touch (entry : CacheEntry) (now : Z) : CacheEntry :=
  {| data := data entry; timestamp := timestamp entry; lastAccessed := now |}.

(** The end of [get]: join the pending load of the key, or start one. *)
Definition getBlocking (key : string) (fetchFn : Loader) (c : Cache) : GetResult * Cache :=
  match fetchPromises c !! key with
  | Some promise => (Awaits promise, c)
  | None =>
      let '(promise, c') := fetchAndCache key fetchFn false c in
      (Awaits promise, c')
  end.

(** [get(key, fetchFn)] called when [Date.now()] reads [now]. *)
Definition get (key : string) (now : Z) (fetchFn : Loader) (c : Cache) : GetResult * Cache :=
  match mapGet key (cache c) with
  | Some cachedEntry =>
      if (now - timestamp cachedEntry <? maxAge (options c))%Z then
        (Resolved (data cachedEntry),
         withCache c (mapSet key (touch cachedEntry now) (cache c)))
      else if (now - timestamp cachedEntry <? staleWhileRevalidate (options c))%Z then
        let c1 := refreshInBackground key fetchFn c in
        (Resolved (data cachedEntry),
         withCache c1 (mapSet key (touch cachedEntry now) (cache c1)))
      else getBlocking key fetchFn c
  | None => getBlocking key fetchFn c
  end.

Definition refresh (key : string) (fetchFn : Loader) (c : Cache) : GetResult * Cache :=
  let '(promise, c') := fetchAndCache key fetchFn false c in
  (Awaits promise, c').

Definition invalidate (key : string) (c : Cache) : Cache :=
  withFetchPromises (withCache c (mapDelete key (cache c))) (delete key (fetchPromises c)).

Definition clear (c : Cache) : Cache :=
  withFetchPromises (withCache c []) ∅.

Definition has (key : string) (c : Cache) : bool := mapHas key (cache c).

(** The rest of the body of [fetchAndCache], run when the promise its loader
    returned settles while [Date.now()] reads [now]: on success the entry is
    written and the eviction runs; in both cases the [finally] block deletes
    the record of the key, and the promise of the body settles as the loader
    did.  A rejected background refresh queues its [.catch] callback. *)
Definition loaderSettles (promise : nat) (outcome : T + E) (now : Z) (c : Cache) : Cache :=
  match inflight c !! promise with
  | None => c
  | Some task =>
      let key := taskKey task in
      match outcome with
      | inl value =>
          {| options := options c;
             cache := evictLRUIfNeeded (options c)
                        (mapSet key (mkEntry value now now) (cache c));
             fetchPromises := delete key (fetchPromises c);
             inflight := delete promise (inflight c);
             settled := <[promise := Fulfilled value]> (settled c);
             catchQueue := catchQueue c;
             nextPromise := nextPromise c;
             loaderCalls := loaderCalls c |}
      | inr reason =>
          {| options := options c;
             cache := cache c;
             fetchPromises := delete key (fetchPromises c);
             inflight := delete promise (inflight c);
             settled := <[promise := Rejected reason]> (settled c);
             catchQueue :=
               if taskBackground task then catchQueue c ++ [key] else catchQueue c;
             nextPromise := nextPromise c;
             loaderCalls := loaderCalls c |}
      end
  end.

(** The oldest queued [.catch] callback of [refreshInBackground] runs: it
    deletes the record of its key once more. *)
Definition runCatchCallback (c : Cache) : Cache :=
  match catchQueue c with
  | [] => c
  | key :: rest =>
      {| options := options c; cache := cache c;
         fetchPromises := delete key (fetchPromises c);
         inflight := inflight c; settled := settled c; catchQueue := rest;
         nextPromise := nextPromise c; loaderCalls := loaderCalls c |}
  end.

(** How the promise handed out by [get] stands in a state: [None] while it
    is pending. *)
Definition outcomeOf (c : Cache) (r : GetResult) : option Settlement :=
  match r with
  | Resolved value => Some (Fulfilled value)
  | Awaits promise => settled c !! promise
  end.

(** Several calls of [get] for one key, one after the other with nothing in
    between; each has its own clock reading and its own loader. *)
Fixpoint getAll (key : string) (calls : list (Z * Loader)) (c : Cache)
    : list GetResult * Cache :=
  match calls with
  | [] => ([], c)
  | (now, fetchFn) :: rest =>
      let '(r, c1) := get key now fetchFn c in
      let '(rs, c2) := getAll key rest c1 in
      (r :: rs, c2)
  end.

(** The operations that act on a cache, as the event loop interleaves them:
    calls of the public methods, loader promises settling, and queued
    [.catch] callbacks running. *)
Inductive Op : Type :=
| OpGet (key : string) (now : Z) (fetchFn : Loader)
| OpRefresh (key : string) (fetchFn : Loader)
| OpInvalidate (key : string)
| OpClear
| OpSettle (promise : nat) (outcome : T + E) (now : Z)
| OpCatch.

Definition step (op : Op) (c : Cache) : Cache :=
  match op with
  | OpGet key now fetchFn => snd (get key now fetchFn c)
  | OpRefresh key fetchFn => snd (refresh key fetchFn c)
  | OpInvalidate key => invalidate key c
  | OpClear => clear c
  | OpSettle promise outcome now => loaderSettles promise outcome now c
  | OpCatch => runCatchCallback c
  end.

Definition runOps (ops : list Op) (c : Cache) : Cache :=
  List.fold_left (fun acc op => step op acc) ops c.

End Cache.

Arguments Op : clear implicits.
Arguments CacheEntry : clear implicits.
Arguments EntryMap : clear implicits.
Arguments Settlement : clear implicits.
Arguments Cache : clear implicits.
Arguments GetResult : clear implicits.

End CacheModel.

(** ** [getItemWithComments] of [src/api.ts] *)
Module Api.
Import Errors Utilities.

Inductive HackerNewsItemType : Type := Job | Story | Comment | Poll | Pollopt.

(** [HackerNewsItem]; every field but [id] is optional.  [type], [by] and
    [time] carry a suffix. *)
Record HackerNewsItem : Type := mkItem {
  id : Z;
  deleted : option bool;
  type_ : option HackerNewsItemType;
  by_ : option string;
  time_ : option Z;
  text : option string;
  dead : option bool;
  parent : option Z;
  poll : option Z;
  kids : option (list Z);
  url : option string;
  score : option Z;
  title : option string;
  parts : option (list Z);
  descendants : option Z
}.

(** [HackerNewsCommentTree]: [{ ...item, replies }]. *)
#[warnings="-register-all"]
Inductive HackerNewsCommentTree : Type :=
| Tree (item : HackerNewsItem) (replies : list HackerNewsCommentTree).

Definition treeItem (t : HackerNewsCommentTree) : HackerNewsItem :=
  match t with Tree item _ => item end.

Definition treeReplies (t : HackerNewsCommentTree) : list HackerNewsCommentTree :=
  match t with Tree _ replies => replies end.

(** Truthiness of an optional boolean field. *)
Definition truthy (b : option bool) : bool :=
  match b with Some true => true | _ => false end.

(** The placeholder returned for a comment that failed to load. *)
Definition placeholder (kidId : Z) : HackerNewsCommentTree :=
  Tree {| id := kidId; deleted := Some true; type_ := Some Comment; by_ := None;
          time_ := None; text := Some "Failed to load comment"; dead := None;
          parent := None; poll := None; kids := None; url := None; score := None;
          title := None; parts := None; descendants := None |}
       [].

(** The options object of [getItemWithComments]. *)
Record TreeOptions : Type := mkTreeOptions {
  maxDepth : option nat;
  currentDepth : option nat;
  concurrency : option nat
}.

Definition DEFAULT_MAX_COMMENT_DEPTH : nat := 25.

Section GetItemWithComments.

(** [getItem], the cache-backed lookup of one item, as it answers during one
    materialization: a value, or a thrown error. *)
Variable getItem : Z -> Completion HackerNewsItem.

(** [!item.kids || item.kids.length === 0]. *)
Definition noKids (item : HackerNewsItem) : bool :=
  match kids item with
  | None | Some [] => true
  | Some (_ :: _) => false
  end.

(** What the body of [getItemWithComments] settles with once the jobs it
    gave to the limiter have finished; [Promise.all] keeps the order of the
    kids.  Whether the jobs finish is for the limiter to decide: see
    [Scheduling].  [left] is [maxDepth - currentDepth], so [left = 0] is
    [currentDepth >= maxDepth], and the recursive call, made with
    [currentDepth + 1], has one less. *)
Fixpoint materialize (left : nat) (itemId : Z) : Completion HackerNewsCommentTree :=
  match getItem itemId with
  | Abrupt error => Abrupt error
  | Normal item =>
      match left with
      | O => Normal (Tree item [])
      | S left' =>
          if noKids item then Normal (Tree item [])
          else
            let replies :=
              List.map (fun kidId =>
                          match materialize left' kidId with
                          | Normal reply => reply
                          | Abrupt _ => placeholder kidId
                          end)
                       (default [] (kids item)) in
            let validReplies :=
              List.filter (fun reply =>
                             negb (truthy (deleted (treeItem reply)))
                             && negb (truthy (dead (treeItem reply))))
                          replies in
            Normal (Tree item validReplies)
      end
  end.

Definition getItemWithComments (itemId : Z) (options : TreeOptions)
    : Completion HackerNewsCommentTree :=
  let maxDepth := default DEFAULT_MAX_COMMENT_DEPTH (maxDepth options) in
  let currentDepth := default 0%nat (currentDepth options) in
  materialize (maxDepth - currentDepth) itemId.


End GetItemWithComments.

End Api.

(** ** Vocabulary of the retry properties, and sample worlds *)
Module RetrySpec.
Import Js Errors Utilities.

(** Transport calls among the awaits of a trace, and their number. *)
Definition isFetch (ev : Event) : bool :=
  match ev with EvFetch => true | EvSleep _ => false end.

Definition fetchCount (tr : list Event) : nat := List.length (List.filter isFetch tr).

(** No await of the trace was started after the abort. *)
Definition quiet (plan : AbortPlan) (tr : list Event) : Prop :=
  forall i, (i < List.length tr)%nat -> signalAborted plan i = false.

(** How an awaited transport call completes. *)
Definition completionOf (outcome : FetchOutcome) : Completion Response :=
  match outcome with
  | Returns response => Normal response
  | Throws error => Abrupt error
  end.

(** The state of a run between two steps: nothing was started after the
    abort, and [calls] counts the transport calls of the trace. *)
Definition Good (plan : AbortPlan) (run : Run) : Prop :=
  quiet plan (trace run) /\ calls run = fetchCount (trace run).

(** The trace ends with a transport call. *)
Definition endsWithFetch (tr : list Event) : Prop := exists tr', tr = tr' ++ [EvFetch].

(** Whether the loop goes on to another attempt after the transport call
    of [attempt] has ended with [outcome]: retries remain, and the call
    either answered with a retryable status or threw a network error that is
    retried. *)
Definition wouldRetry (opts : RequiredRetryOptions) (attempt : nat)
    (outcome : FetchOutcome) : bool :=
  (attempt <? maxRetries opts)%nat &&
  match outcome with
  | Returns response =>
      negb (ok response)
      && existsb (Nat.eqb (status response)) (retryableStatusCodes opts)
  | Throws error =>
      negb (isAbortError error) && retryNetworkErrors opts && isNetworkError error
  end.

(** The last transport call of a run ends the run by itself: with retries
    disabled it always does; otherwise it does when the loop would not go
    on after it. *)
Definition lastCallEndsRun (env : Env) (options : RetryArg) (run : Run) : Prop :=
  match options with
  | RetryDisabled => True
  | RetryWith o =>
      wouldRetry (mergeOptions DEFAULT_RETRY_OPTIONS o) (calls run - 1)
        (transport env (calls run - 1)) = false
  end.

(** A transport that ignores the signal and answers 200, while the abort is
    requested during that first call. *)
Definition okDespiteAbort : Env :=
  mkEnv (fun _ => Returns (Response_new 200 "OK" None)) (fun _ => 0%Q) (AbortDuring 0).

(** The same transport, called with a signal that is already aborted. *)
Definition abortedEarly : Env :=
  mkEnv (fun _ => Returns (Response_new 200 "OK" None)) (fun _ => 0%Q) AbortedBefore.

(** The transport of the abort test: every call answers 500, and the abort
    is requested while the first call is pending. *)
Definition abortAfterFirstAttempt : Env :=
  mkEnv (fun _ => Returns (Response_new 500 "Internal Server Error" None))
        (fun _ => 0%Q) (AbortDuring 0).

(** The response of the rate-limit scenario. *)
Definition tooManyRequests (text : string) : Response :=
  Response_new 429 text (Some "30").

(** A transport that answers every call with it, and the options of the
    rate-limit test. *)
Definition alwaysTooManyRequests : Env :=
  mkEnv (fun _ => Returns (tooManyRequests "Too Many Requests")) (fun _ => 0%Q) NoAbort.

Definition rateLimitTestOptions : RetryOptions :=
  mkRetryOptions (Some 0%nat) (Some 1%Q) (Some 10%Q) (Some 0%Q) (Some [429%nat]) None None.

(** A transport that fails every call the way the [fetch] of Node does on a
    refused connection: a [TypeError] whose message is not one of the two
    that [isNetworkError] looks for. *)
Definition alwaysRefused : Env :=
  mkEnv (fun _ => Throws (TypeError "fetch failed")) (fun _ => 0%Q) NoAbort.

(** Two retries, short delays, no jitter, the other options left to the
    defaults. *)
Definition twoRetries : RetryOptions :=
  mkRetryOptions (Some 2%nat) (Some 1%Q) (Some 10%Q) (Some 0%Q) None None None.

(** A transport that fails every call with the network error of a
    browser. *)
Definition alwaysOffline : Env :=
  mkEnv (fun _ => Throws (TypeError "Failed to fetch")) (fun _ => 0%Q) NoAbort.

End RetrySpec.

(** ** Vocabulary of the cache properties, and sample runs *)
Module CacheSpec.
Import CacheModel.

Section Vocabulary.

Context {T E Loader : Type}.

Abbreviation EntryMap := (CacheModel.EntryMap T).
Abbreviation Cache := (CacheModel.Cache T E Loader).

(** The keys of the entry map, in insertion order. *)
Definition keys (m : EntryMap) : list string := List.map fst m.

(** The settlement a loader outcome gives to the promise of its load. *)
Definition settlementOf (outcome : T + E) : Settlement T E :=
  match outcome with
  | inl value => Fulfilled value
  | inr reason => Rejected reason
  end.

(** The order the eviction sorts by. *)
Definition olderOrEqual (a b : string * Z) : Prop := (snd a <= snd b)%Z.

(** The [forEach] of the eviction: the keys of [doomed] are deleted one
    after the other. *)
Definition deleteAll (doomed : list (string * Z)) (m : EntryMap) : EntryMap :=
  List.fold_left (fun acc entry => mapDelete (fst entry) acc) doomed m.

(** The array the eviction builds from the entries before it sorts. *)
Definition accessTimes (m : EntryMap) : list (string * Z) :=
  List.map (fun kv => (fst kv, lastAccessed (snd kv))) m.

(** The part of a state that the eviction scenario follows: no load is
    recorded as in flight between two of its steps. *)
Definition view (c : Cache) (opts : CacheOptions) (m : EntryMap) (next : nat)
    (calls : list (string * Loader)) : Prop :=
  options c = opts /\ cache c = m /\ fetchPromises c = ∅ /\
  nextPromise c = next /\ loaderCalls c = calls.

(** The operations of the scenario: A, B and C are loaded, A is read again,
    D is loaded.  [tA], [tB], [tC], [tA'] and [tD] are the clock readings of
    the five steps, [loaderOf] gives each call its loader. *)
Definition lruScenario (tA tB tC tA' tD : Z) (vA vB vC vD : T)
    (loaderOf : string -> Loader) : list (Op T E Loader) :=
  [ OpGet "A" tA (loaderOf "A"); OpSettle 0 (inl vA) tA;
    OpGet "B" tB (loaderOf "B"); OpSettle 1 (inl vB) tB;
    OpGet "C" tC (loaderOf "C"); OpSettle 2 (inl vC) tC;
    OpGet "A" tA' (loaderOf "A");
    OpGet "D" tD (loaderOf "D"); OpSettle 3 (inl vD) tD ].

End Vocabulary.

(** The cache of the test suite: fresh for 100 ms, stale up to 200 ms, room
    for a thousand entries.  Data and rejection reasons are strings, loaders
    are numbered. *)
Definition testCache : CacheModel.Cache string string nat :=
  newCache (mkOptions 100 200 (Some 1000%nat)).

(** The key was written at 0; two reads follow at 150 and 160, in the stale
    band, the second before the load started by the first has settled. *)
Definition staleReads : CacheModel.Cache string string nat :=
  runOps [ OpGet "k" 0%Z 1%nat; OpSettle 0 (inl "old") 0%Z ] testCache.

(** A blocking load for "k" is started, the key is invalidated, and the load
    then succeeds. *)
Definition invalidatedLoad : CacheModel.Cache string string nat :=
  invalidate "k" (step (OpGet "k" 0%Z 1%nat) testCache).

(** A cache whose [maxEntries] is set to 0. *)
Definition zeroCapacity : CacheModel.Cache string string nat :=
  newCache (mkOptions 1000 2000 (Some 0%nat)).

(** The options and the clock readings of the eviction test. *)
Definition lruOptions : CacheOptions := mkOptions 1000 2000 (Some 3%nat).

(** The same steps, all made at one clock reading. *)
Definition lruSameReading : CacheModel.Cache string string nat :=
  runOps (lruScenario 100 100 100 100 100 "value1" "value2" "value3" "value4"
            (fun _ => 0%nat))
         (newCache lruOptions).

(** The run of the eviction test. *)
Definition lruTestRun : CacheModel.Cache string string nat :=
  runOps (lruScenario 100 200 300 400 500 "value1" "value2" "value3" "value4"
            (fun _ => 0%nat))
         (newCache lruOptions).

End CacheSpec.

(** ** A sample thread for the tree properties *)
Module TreeSpec.
Import Errors Utilities Api.

(** A live comment on the story. *)
Definition comment (itemId : Z) : HackerNewsItem :=
  {| id := itemId; deleted := None; type_ := Some Comment; by_ := Some "pg";
     time_ := None; text := Some "hello"; dead := None; parent := Some 1%Z;
     poll := None; kids := None; url := None; score := None; title := None;
     parts := None; descendants := None |}.

(** The story: its kids are 2, 3 and 4. *)
Definition story : HackerNewsItem :=
  {| id := 1; deleted := None; type_ := Some Story; by_ := Some "pg";
     time_ := None; text := None; dead := None; parent := None; poll := None;
     kids := Some [2; 3; 4]%Z; url := None; score := Some 10%Z;
     title := Some "Show HN"; parts := None; descendants := Some 3%Z |}.

(** The lookup: item 3 cannot be fetched. *)
Definition brokenSecondKid (itemId : Z) : Completion HackerNewsItem :=
  if (itemId =? 1)%Z then Normal story
  else if (itemId =? 3)%Z then Abrupt (Error "HN API error 500: Failed to fetch item 3")
  else Normal (comment itemId).

End TreeSpec.

(** ** Sample cache states *)
Module CacheSamples.
Import CacheModel CacheSpec.

(** A blocking load of "k" is in flight: promise 0. *)
Definition pendingLoad : CacheModel.Cache string string nat :=
  step (OpGet "k" 0%Z 1%nat) testCache.

(** "k" was loaded at 0 and holds "old". *)
Definition loadedOnce : CacheModel.Cache string string nat :=
  runOps [ OpGet "k" 0%Z 1%nat; OpSettle 0 (inl "old") 0%Z ] testCache.

(** A load of "k" is started, the key is invalidated, and a second load of
    "k" is started while the first is still in flight: promises 0 and 1. *)
Definition overlappingLoads : CacheModel.Cache string string nat :=
  runOps [ OpGet "k" 0%Z 1%nat; OpInvalidate "k"; OpGet "k" 5%Z 2%nat ] testCache.

(** Four entries, one more than [lruOptions] allows; "B" is the least
    recently accessed. *)
Definition fourEntries : CacheModel.EntryMap string :=
  [ ("A", mkEntry "value1" 100%Z 400%Z); ("B", mkEntry "value2" 200%Z 200%Z);
    ("C", mkEntry "value3" 300%Z 300%Z); ("D", mkEntry "value4" 500%Z 500%Z) ].

End CacheSamples.

(** ** The course of a run of [fetchWithRetry] that is not aborted *)
Module RetrySchedule.
Import Js Errors Utilities RetrySpec.

(** The three errors the [try] block builds from a response that is not
    ok. *)
Definition statusError (response : Response) : Thrown :=
  Error ("Request failed with status " ++ showNat (status response)
         ++ ": " ++ statusText response).

Definition rateLimitError (response : Response) : Thrown :=
  RateLimitError_new
    ("Rate limit exceeded with status code " ++ showNat (status response)
     ++ ". Check retryAfterSeconds for wait time.")
    response.

Definition exhaustedError (opts : RequiredRetryOptions) (response : Response) : Thrown :=
  Error ("Request failed with status " ++ showNat (status response)
         ++ " after " ++ showNat (maxRetries opts) ++ " retries").

(** The error for a response that is not ok and is not retried. *)
Definition finalError (opts : RequiredRetryOptions) (response : Response) : Thrown :=
  if negb (existsb (Nat.eqb (status response)) (retryableStatusCodes opts))
  then statusError response
  else if (status response =? 429)%nat then rateLimitError response
  else exhaustedError opts response.

(** How the run ends on a transport outcome that is not retried. *)
Definition settle (opts : RequiredRetryOptions) (outcome : FetchOutcome)
    : Completion Response :=
  match outcome with
  | Returns response =>
      if ok response then Normal response else Abrupt (finalError opts response)
  | Throws error => Abrupt error
  end.

(** The wait a transport outcome asks for through [Retry-After]. *)
Definition retryAfterOf (outcome : FetchOutcome) : option Q :=
  match outcome with
  | Returns response =>
      match truthyHeader (retryAfterHeader response) with
      | Some retryAfter => retryAfterWait retryAfter
      | None => None
      end
  | Throws _ => None
  end.

(** The sleep before the transport call of [attempt]: none before the
    first, the computed backoff before the others. *)
Definition backoffWait (env : Env) (opts : RequiredRetryOptions) (attempt : nat)
    : list Event :=
  if (0 <? attempt)%nat
  then [EvSleep (calculateBackoff (attempt - 1) opts (mathRandom env (attempt - 1)))]
  else [].

(** The sleep after the transport call of [attempt], when its outcome is
    retried and asks for a wait. *)
Definition retryAfterSleep (opts : RequiredRetryOptions) (attempt : nat)
    (outcome : FetchOutcome) : list Event :=
  if wouldRetry opts attempt outcome then
    match retryAfterOf outcome with
    | Some waitTime => [EvSleep waitTime]
    | None => []
    end
  else [].

(** The awaits of the first [n] attempts. *)
Fixpoint schedule (env : Env) (opts : RequiredRetryOptions) (n : nat) : list Event :=
  match n with
  | O => []
  | S k =>
      schedule env opts k ++ backoffWait env opts k ++ [EvFetch]
      ++ retryAfterSleep opts k (transport env k)
  end.

(** A server that answers 503 twice and then 200. *)
Definition recovers : Env :=
  mkEnv (fun i => if (i <? 2)%nat
                  then Returns (Response_new 503 "Service Unavailable" None)
                  else Returns (Response_new 200 "OK" None))
        (fun _ => (1 # 2)%Q) NoAbort.

(** A server that answers 429 with [Retry-After: 2] and then 200. *)
Definition asksToWait : Env :=
  mkEnv (fun i => if (i <? 1)%nat
                  then Returns (Response_new 429 "Too Many Requests" (Some "2"))
                  else Returns (Response_new 200 "OK" None))
        (fun _ => (1 # 2)%Q) NoAbort.

End RetrySchedule.

(** ** [src/hooks.ts] *)
Module Hooks.
Import Errors Utilities.

(** [value instanceof Error]: every thrown class of the model is an
    [Error]; [undefined] is not. *)
Definition instanceOfError (value : Thrown) : bool :=
  match value with
  | Undefined => false
  | _ => true
  end.

Section HooksManager.

(** What a [beforeFetch] hook takes and returns: [{ url, options }]. *)
Context {Request : Type}.

(** A hook is a function of the caller; it returns or throws.  An
    [onError] hook returns an error or [undefined]; an awaited promise that
    rejects counts as a throw. *)
Definition BeforeFetchHook : Type := Request -> Completion Request.
Definition AfterFetchHook : Type := Response -> Completion Response.
Definition OnErrorHook : Type := Thrown -> Completion Thrown.

Record ClientHooks : Type := mkClientHooks {
  beforeFetch : option BeforeFetchHook;
  afterFetch : option AfterFetchHook;
  onError : option OnErrorHook
}.

Record HooksManager : Type := mkHooksManager {
  beforeFetchHooks : list BeforeFetchHook;
  afterFetchHooks : list AfterFetchHook;
  onErrorHooks : list OnErrorHook
}.

(** [new HooksManager()]. *)
Definition newHooksManager : HooksManager :=
  {| beforeFetchHooks := []; afterFetchHooks := []; onErrorHooks := [] |}.

(** [if (hook) { hooks.push(hook) }]. *)
Definition pushIfPresent {A : Type} (hooks : list A) (hook : option A) : list A :=
  match hook with
  | Some h => hooks ++ [h]
  | None => hooks
  end.

Definition register (hooks : ClientHooks) (m : HooksManager) : HooksManager :=
  {| beforeFetchHooks := pushIfPresent (beforeFetchHooks m) (beforeFetch hooks);
     afterFetchHooks := pushIfPresent (afterFetchHooks m) (afterFetch hooks);
     onErrorHooks := pushIfPresent (onErrorHooks m) (onError hooks) |}.

Definition clear (m : HooksManager) : HooksManager :=
  {| beforeFetchHooks := []; afterFetchHooks := []; onErrorHooks := [] |}.

(** [for (const hook of hooks) { result = hook(result) }], left by the first
    hook that throws. *)
Fixpoint runInSequence {A : Type} (hooks : list (A -> Completion A)) (result : A)
    : Completion A :=
  match hooks with
  | [] => Normal result
  | hook :: rest =>
      match hook result with
      | Normal next => runInSequence rest next
      | Abrupt error => Abrupt error
      end
  end.

Definition runBeforeFetchHooks (m : HooksManager) (request : Request)
    : Completion Request :=
  runInSequence (beforeFetchHooks m) request.

Definition runAfterFetchHooks (m : HooksManager) (response : Response)
    : Completion Response :=
  runInSequence (afterFetchHooks m) response.

(** The body of the loop of [runOnErrorHooks]: the [try] and its
    [catch]. *)
Definition onErrorStep (currentError : Thrown) (hook : OnErrorHook) : Thrown :=
  match hook currentError with
  | Normal result => if instanceOfError result then result else currentError
  | Abrupt e => if instanceOfError e then e else currentError
  end.

Definition runOnErrorHooks (m : HooksManager) (error : Thrown) : Thrown :=
  List.fold_left onErrorStep (onErrorHooks m) error.

End HooksManager.

Arguments ClientHooks : clear implicits.
Arguments HooksManager : clear implicits.

End Hooks.

(** ** [clientFetch] of [src/api.ts] *)
Module Client.
Import Errors Utilities Hooks.

Section ClientFetch.

(** Request URLs, abort signals, and the fields of a [RequestInit] other
    than [signal]; [noFields] is what spreading [undefined] gives. *)
Context {Url Signal Fields : Type}.
Variable noFields : Fields.

Record RequestInit : Type := mkRequestInit {
  signal : option Signal;
  fields : Fields
}.

Definition Request : Type := Url * option RequestInit.

(** The options of [createClient] that [clientFetch] reads.  [customFetch]
    is [options.fetch] when it is given and is not [globalThis.fetch]; the
    function answers a call by a response or by throwing. *)
Record ClientOptions : Type := mkClientOptions {
  customFetch : option (Url -> option RequestInit -> Completion Response);
  retry : RetryArg;
  clientSignal : option Signal
}.

(** The world the retrying fetch meets for a request: its transport, its
    random draws and the fate of the signal it is given. *)
Variable world : Url -> option RequestInit -> Env.

(** [options.signal ? { ...init, signal: init?.signal || options.signal } : init]. *)
Definition mergeSignal (options : ClientOptions) (init : option RequestInit)
    : option RequestInit :=
  match clientSignal options with
  | Some s =>
      Some {| signal := Some (match init with
                              | Some i => default s (signal i)
                              | None => s
                              end);
              fields := match init with
                        | Some i => fields i
                        | None => noFields
                        end |}
  | None => init
  end.

(** [error instanceof Error ? error : new Error(String(error))]. *)
Definition toError (error : Thrown) : Thrown :=
  if instanceOfError error then error else Error "undefined".

(** The [try] block of [clientFetch]. *)
Definition dispatch (options : ClientOptions) (m : HooksManager Request)
    (url : Url) (requestInit : option RequestInit) : Completion Response :=
  match runBeforeFetchHooks m (url, requestInit) with
  | Abrupt error => Abrupt error
  | Normal (modifiedUrl, modifiedOptions) =>
      let response :=
        match customFetch options with
        | Some _fetch => _fetch modifiedUrl modifiedOptions
        | None =>
            fst (fetchWithRetry (world modifiedUrl modifiedOptions) (retry options)
                   initialRun)
        end in
      match response with
      | Abrupt error => Abrupt error
      | Normal response => runAfterFetchHooks m response
      end
  end.

Definition clientFetch (options : ClientOptions) (m : HooksManager Request)
    (url : Url) (init : option RequestInit) : Completion Response :=
  match dispatch options m url (mergeSignal options init) with
  | Normal response => Normal response
  | Abrupt error => Abrupt (runOnErrorHooks m (toError error))
  end.

End ClientFetch.

Arguments RequestInit : clear implicits.
Arguments ClientOptions : clear implicits.

End Client.

(** ** The shape of a materialized thread *)
Module TreeShape.
Import Errors Utilities Api.

(** [!reply.deleted && !reply.dead]. *)
Definition live (item : HackerNewsItem) : bool :=
  negb (truthy (deleted item)) && negb (truthy (dead item)).

(** The items of the kids that can be fetched and are neither deleted nor
    dead, in the order of the kids. *)
Definition liveKids (getItem : Z -> Completion HackerNewsItem) (kidIds : list Z)
    : list HackerNewsItem :=
  List.flat_map (fun kidId =>
                   match getItem kidId with
                   | Normal item => if live item then [item] else []
                   | Abrupt _ => []
                   end)
                kidIds.

(** The number of levels of replies below the root. *)
Fixpoint depth (t : HackerNewsCommentTree) : nat :=
  match t with
  | Tree _ replies => List.fold_right (fun reply acc => Nat.max (S (depth reply)) acc) 0%nat replies
  end.

(** At every node the replies are either cut off or carry, in order, the
    items of the live kids. *)
Fixpoint faithful (getItem : Z -> Completion HackerNewsItem) (t : HackerNewsCommentTree)
    : Prop :=
  match t with
  | Tree item replies =>
      (replies = [] \/
       List.map treeItem replies = liveKids getItem (default [] (kids item))) /\
      List.fold_right (fun reply acc => faithful getItem reply /\ acc) True replies
  end.

End TreeShape.

(** ** The limiter around the recursive calls of [getItemWithComments] *)
Module Scheduling.
Import Errors Utilities Api.

(** A job given to [limiter.schedule] for one kid.  It waits in the queue
    of the limiter, then holds one of its slots from the moment it is
    started until the promise of its task settles: while it awaits
    [getItem], and while it awaits the jobs of its own kids. *)
#[warnings="-register-all"]
Inductive Job : Type :=
| Queued (kidId : Z) (levels : nat)
| Fetching (kidId : Z) (levels : nat)
| Waiting (item : HackerNewsItem) (kids : list Job)
| Finished (reply : HackerNewsCommentTree).

(** The call made by the caller.  It is not a job of the limiter and holds
    no slot. *)
Inductive Call : Type :=
| CallFetching (itemId : Z) (levels : nat)
| CallWaiting (item : HackerNewsItem) (kids : list Job)
| CallSettled (result : Completion HackerNewsCommentTree).

(** One element of a list makes one of its moves. *)
Definition oneOf {A : Type} (f : A -> list A) : list A -> list (list A) :=
  fix go (l : list A) : list (list A) :=
    match l with
    | [] => []
    | x :: rest => List.map (fun x' => x' :: rest) (f x) ++ List.map (cons x) (go rest)
    end.

(** The sum of a count over a list. *)
Definition total {A : Type} (count : A -> nat) (l : list A) : nat :=
  List.fold_right (fun x acc => count x + acc)%nat 0%nat l.

Definition replyOf (job : Job) : option HackerNewsCommentTree :=
  match job with
  | Finished reply => Some reply
  | _ => None
  end.

(** What [Promise.all] resolves to once every job has finished. *)
Fixpoint finishedReplies (jobs : list Job) : option (list HackerNewsCommentTree) :=
  match jobs with
  | [] => Some []
  | job :: rest =>
      match replyOf job, finishedReplies rest with
      | Some reply, Some replies => Some (reply :: replies)
      | _, _ => None
      end
  end.

(** [replies.filter((reply) => !reply.deleted && !reply.dead)]. *)
Definition validReplies (replies : list HackerNewsCommentTree)
    : list HackerNewsCommentTree :=
  List.filter (fun reply => negb (truthy (deleted (treeItem reply)))
                            && negb (truthy (dead (treeItem reply))))
              replies.

(** The jobs that hold a slot. *)
Fixpoint running (job : Job) : nat :=
  match job with
  | Queued _ _ => 0
  | Fetching _ _ => 1
  | Waiting _ kids => S (total running kids)
  | Finished _ => 0
  end.



(** The largest of a count over a list. *)
Definition highest {A : Type} (count : A -> nat) (l : list A) : nat :=
  List.fold_right (fun x acc => Nat.max (count x) acc) 0%nat l.

(** How many levels of jobs have been started at and below a job, the
    levels of a finished reply included. *)
Fixpoint startedDepth (job : Job) : nat :=
  match job with
  | Queued _ _ => 0
  | Fetching _ _ => 1
  | Waiting _ kids => S (highest startedDepth kids)
  | Finished reply => S (TreeShape.depth reply)
  end.

Definition callDepth (c : Call) : nat :=
  match c with
  | CallFetching _ _ => 0
  | CallWaiting _ kids => highest startedDepth kids
  | CallSettled (Normal t) => TreeShape.depth t
  | CallSettled (Abrupt _) => 0
  end.

Section Run.

(** [getItem] as it answers during the call (see [Api]), and the
    [maxConcurrent] of the limiter of the client: 5 when the client is
    created without a [limiter] option, [None] ([Infinity]) with
    [limiter: false].  No other job is given to the limiter while the call
    runs. *)
Variable getItem : Z -> Completion HackerNewsItem.
Variable maxConcurrent : option nat.

(** The jobs a call schedules for the kids of its item, in their order. *)
Definition scheduleKids (item : HackerNewsItem) (levels : nat) : list Job :=
  List.map (fun kidId => Queued kidId levels) (default [] (kids item)).

(** The task of a job, from the moment [getItem] settles: the body of
    [getItemWithComments] inside the [try] of the job.  A failure becomes
    the placeholder. *)
Definition afterFetch (kidId : Z) (levels : nat) : Job :=
  match getItem kidId with
  | Abrupt _ => Finished (placeholder kidId)
  | Normal item =>
      match levels with
      | O => Finished (Tree item [])
      | S levels' =>
          if noKids item then Finished (Tree item [])
          else Waiting item (scheduleKids item levels')
      end
  end.

(** The same for the call of the caller, where a failure is thrown. *)
Definition callAfterFetch (itemId : Z) (levels : nat) : Call :=
  match getItem itemId with
  | Abrupt error => CallSettled (Abrupt error)
  | Normal item =>
      match levels with
      | O => CallSettled (Normal (Tree item []))
      | S levels' =>
          if noKids item then CallSettled (Normal (Tree item []))
          else CallWaiting item (scheduleKids item levels')
      end
  end.

(** Whether the limiter has a slot to give. *)
Definition hasFreeSlot (jobs : list Job) : bool :=
  match maxConcurrent with
  | None => true
  | Some limit => (total running jobs <? limit)%nat
  end.

(** The moves of a job: the limiter starts it (only while a slot is free;
    Bottleneck takes the queued jobs in the order they were given, here any
    of them may be the next), its [getItem] settles, its [Promise.all]
    resolves, or a job below it moves. *)
Fixpoint moves (free : bool) (job : Job) : list Job :=
  match job with
  | Queued kidId levels => if free then [Fetching kidId levels] else []
  | Fetching kidId levels => [afterFetch kidId levels]
  | Waiting item kids =>
      match finishedReplies kids with
      | Some replies => [Finished (Tree item (validReplies replies))]
      | None => []
      end
      ++ List.map (Waiting item) (oneOf (moves free) kids)
  | Finished _ => []
  end.

(** The states one event away from a state of the call. *)
Definition steps (c : Call) : list Call :=
  match c with
  | CallFetching itemId levels => [callAfterFetch itemId levels]
  | CallWaiting item kids =>
      match finishedReplies kids with
      | Some replies => [CallSettled (Normal (Tree item (validReplies replies)))]
      | None => []
      end
      ++ List.map (CallWaiting item) (oneOf (moves (hasFreeSlot kids)) kids)
  | CallSettled _ => []
  end.

(** [getItemWithComments(itemId, options)] when it is called. *)
Definition call (itemId : Z) (options : TreeOptions) : Call :=
  CallFetching itemId
    (default DEFAULT_MAX_COMMENT_DEPTH (maxDepth options)
     - default 0%nat (currentDepth options)).

(** A state that the call can reach. *)
Inductive Reaches : Call -> Call -> Prop :=
| reaches_here c : Reaches c c
| reaches_on c c' c'' : List.In c' (steps c) -> Reaches c' c'' -> Reaches c c''.

(** Whatever the order of the events, the promise of the call settles, and
    it settles with [result]. *)
Inductive Settles : Call -> Completion HackerNewsCommentTree -> Prop :=
| settles_now result : Settles (CallSettled result) result
| settles_later c result :
    steps c <> [] ->
    (forall c', List.In c' (steps c) -> Settles c' result) ->
    Settles c result.

(** The promise of the call is pending and no event is left that could
    settle it. *)
Definition Stuck (c : Call) : Prop :=
  steps c = [] /\ forall result, c <> CallSettled result.





(** The reply a job hands to [Promise.all] when it finishes: what its call
    resolves to, or the placeholder. *)
Definition replyFor (levels : nat) (kidId : Z) : HackerNewsCommentTree :=
  match materialize getItem levels kidId with
  | Normal reply => reply
  | Abrupt _ => placeholder kidId
  end.

Fixpoint jobReply (job : Job) : HackerNewsCommentTree :=
  match job with
  | Queued kidId levels | Fetching kidId levels => replyFor levels kidId
  | Waiting item kids => Tree item (validReplies (List.map jobReply kids))
  | Finished reply => reply
  end.

(** What the promise of the call settles with, if it settles. *)
Definition callResult (c : Call) : Completion HackerNewsCommentTree :=
  match c with
  | CallFetching itemId levels => materialize getItem levels itemId
  | CallWaiting item kids => Normal (Tree item (validReplies (List.map jobReply kids)))
  | CallSettled result => result
  end.

(** A bound on the events that a job, or the call, still has before it. *)
Fixpoint fetchEvents (levels : nat) (kidId : Z) : nat :=
  S (match getItem kidId with
     | Abrupt _ => 0
     | Normal item =>
         match levels with
         | O => 0
         | S levels' =>
             if noKids item then 0
             else S (total (fun kid => S (fetchEvents levels' kid))
                       (default [] (kids item)))
         end
     end).

Fixpoint eventsLeft (job : Job) : nat :=
  match job with
  | Queued kidId levels => S (fetchEvents levels kidId)
  | Fetching kidId levels => fetchEvents levels kidId
  | Waiting _ kids => S (total eventsLeft kids)
  | Finished _ => 0
  end.

Definition callEventsLeft (c : Call) : nat :=
  match c with
  | CallFetching itemId levels => fetchEvents levels itemId
  | CallWaiting _ kids => S (total eventsLeft kids)
  | CallSettled _ => 0
  end.


End Run.


End Scheduling.

(** ** A thread that is too deep for the limiter *)
Module DeepThread.
Import Errors Utilities Api TreeSpec.

(** A comment with one reply. *)
Definition answered (itemId parentId kidId : Z) : HackerNewsItem :=
  {| id := itemId; deleted := None; type_ := Some Comment; by_ := Some "pg";
     time_ := None; text := Some "hello"; dead := None; parent := Some parentId;
     poll := None; kids := Some [kidId]; url := None; score := None; title := None;
     parts := None; descendants := None |}.

(** The story 1 has the kids 2, 3 and 4.  Item 3 cannot be fetched, item 4
    is a comment without replies, and under item 2 the replies nest: 5
    answers 2, 6 answers 5, 7 answers 6, 8 answers 7 and 9 answers 8. *)
Definition nested (itemId : Z) : Completion HackerNewsItem :=
  if (itemId =? 1)%Z then Normal story
  else if (itemId =? 3)%Z then Abrupt (Error "HN API error 500: Failed to fetch item 3")
  else if (itemId =? 2)%Z then Normal (answered 2 1 5)
  else if ((5 <=? itemId) && (itemId <=? 8))%Z
       then Normal (answered itemId (if (itemId =? 5)%Z then 2 else itemId - 1)
                      (itemId + 1))
  else Normal (comment itemId).

End DeepThread.

(** ** Sample hooks and clients *)
Module ClientSamples.
Import Errors Utilities Hooks Client.

(** A request is a URL and an optional init whose signals are numbered. *)
Definition SampleRequest : Type := Client.Request (Url:=string) (Signal:=nat) (Fields:=unit).

(** A [beforeFetch] hook that appends to the URL. *)
Definition appendToUrl (suffix : string) : BeforeFetchHook (Request:=SampleRequest) :=
  fun request => Normal (String.append (fst request) suffix, snd request).

(** An [onError] hook that returns [undefined], as a logging hook does. *)
Definition logOnly : OnErrorHook := fun _ => Normal Undefined.

(** An [onError] hook that replaces the error. *)
Definition replaceWith (message : string) : OnErrorHook := fun _ => Normal (Error message).

(** A manager with one hook of each kind. *)
Definition sampleManager : HooksManager SampleRequest :=
  register (mkClientHooks (Some (appendToUrl "?a=1")) (Some (fun r => Normal r))
              (Some logOnly))
           newHooksManager.

(** A server that answers every call with 200. *)
Definition alwaysOk : string -> option (RequestInit nat unit) -> Env :=
  fun _ _ => mkEnv (fun _ => Returns (Response_new 200 "OK" None)) (fun _ => 0%Q) NoAbort.

(** A server that answers every call with 503. *)
Definition alwaysUnavailable : string -> option (RequestInit nat unit) -> Env :=
  fun _ _ => mkEnv (fun _ => Returns (Response_new 503 "Service Unavailable" None))
                   (fun _ => 0%Q) NoAbort.

(** The default client: no custom fetch, default retries, no signal. *)
Definition defaultOptions : ClientOptions string nat unit :=
  mkClientOptions None (RetryWith noOptions) None.

(** A client with a custom fetch that answers 503. *)
Definition customOptions : ClientOptions string nat unit :=
  mkClientOptions (Some (fun _ _ => Normal (Response_new 503 "Service Unavailable" None)))
                  (RetryWith noOptions) None.

End ClientSamples.

(* ===================================================================== *)
(** * Part II: properties                                                  *)
(* ===================================================================== *)

(** ** The cache *)
Module CacheFacts.
Import CacheSpec.
Import CacheModel.

Section Facts.

Context {T E Loader : Type}.

Abbreviation EntryMap := (CacheModel.EntryMap T).
Abbreviation Cache := (CacheModel.Cache T E Loader).

(** *** The entry map *)

Lemma mapGet_None_iff key (m : EntryMap) : mapGet key m = None <-> ~ In key (keys m).
Proof.
  induction m as [| [k v] m IH]; simpl.
  - tauto.
  - destruct (String.eqb_spec k key) as [-> | Hne].
    + split; [discriminate | tauto].
    + rewrite IH. tauto.
Qed.

Lemma mapGet_In key (m : EntryMap) entry : mapGet key m = Some entry -> In (key, entry) m.
Proof.
  induction m as [| [k v] m IH]; simpl; [discriminate |].
  destruct (String.eqb_spec k key) as [-> | Hne].
  - intros [= ->]. left. reflexivity.
  - intros H. right. auto.
Qed.

Lemma In_mapGet key (m : EntryMap) entry :
  List.NoDup (keys m) -> In (key, entry) m -> mapGet key m = Some entry.
Proof.
  induction m as [| [k v] m IH]; simpl; [tauto |].
  intros Hnd [Heq | Hin]; inversion Hnd as [| ? ? Hnotin Hnd']; subst.
  - inversion Heq; subst. rewrite String.eqb_refl. reflexivity.
  - destruct (String.eqb_spec k key) as [-> | Hne].
    + exfalso. apply Hnotin. apply (in_map fst) in Hin. exact Hin.
    + auto.
Qed.

Lemma mapSet_absent key value (m : EntryMap) :
  mapGet key m = None -> mapSet key value m = m ++ [(key, value)].
Proof.
  induction m as [| [k v] m IH]; simpl; [reflexivity |].
  destruct (String.eqb k key); [discriminate |].
  intros H. rewrite IH by assumption. reflexivity.
Qed.

Lemma keys_mapSet_present key value (m : EntryMap) entry :
  mapGet key m = Some entry -> keys (mapSet key value m) = keys m.
Proof.
  induction m as [| [k v] m IH]; simpl; [discriminate |].
  destruct (String.eqb k key); [reflexivity |].
  intros H. simpl. f_equal. auto.
Qed.

Lemma mapGet_mapSet_eq key value (m : EntryMap) : mapGet key (mapSet key value m) = Some value.
Proof.
  induction m as [| [k v] m IH]; simpl.
  - rewrite String.eqb_refl. reflexivity.
  - destruct (String.eqb k key) eqn:Hk; simpl; rewrite Hk; auto.
Qed.

Lemma mapGet_mapSet_ne key key' value (m : EntryMap) :
  key <> key' -> mapGet key' (mapSet key value m) = mapGet key' m.
Proof.
  intros Hne. induction m as [| [k v] m IH]; simpl.
  - destruct (String.eqb_spec key key'); [contradiction | reflexivity].
  - destruct (String.eqb_spec k key) as [-> | Hk]; simpl.
    + destruct (String.eqb_spec key key'); [contradiction | reflexivity].
    + destruct (String.eqb k key'); auto.
Qed.

Lemma length_mapSet key value (m : EntryMap) :
  (List.length (mapSet key value m) <= S (List.length m))%nat.
Proof.
  induction m as [| [k v] m IH]; simpl; [lia |].
  destruct (String.eqb k key); simpl; lia.
Qed.

Lemma NoDup_keys_mapSet key value (m : EntryMap) :
  List.NoDup (keys m) -> List.NoDup (keys (mapSet key value m)).
Proof.
  intros Hnd. destruct (mapGet key m) as [entry |] eqn:Hget.
  - rewrite (keys_mapSet_present _ _ _ _ Hget). assumption.
  - rewrite mapSet_absent by assumption. unfold keys. rewrite List.map_app. simpl.
    apply List.NoDup_app; [assumption | constructor; [simpl; tauto | constructor] |].
    intros k Hin [<- | []]. apply mapGet_None_iff in Hget. contradiction.
Qed.

Lemma keys_mapDelete key (m : EntryMap) :
  keys (mapDelete key m) = List.filter (fun k => negb (String.eqb k key)) (keys m).
Proof.
  induction m as [| [k v] m IH]; simpl; [reflexivity |].
  destruct (String.eqb k key); simpl; rewrite IH; reflexivity.
Qed.

Lemma NoDup_keys_mapDelete key (m : EntryMap) :
  List.NoDup (keys m) -> List.NoDup (keys (mapDelete key m)).
Proof. intros Hnd. rewrite keys_mapDelete. apply List.NoDup_filter. assumption. Qed.

Lemma mapGet_mapDelete_eq key (m : EntryMap) : mapGet key (mapDelete key m) = None.
Proof.
  apply mapGet_None_iff. rewrite keys_mapDelete. intros Hin.
  apply List.filter_In in Hin. destruct Hin as [_ Hneq].
  rewrite String.eqb_refl in Hneq. discriminate.
Qed.

Lemma mapGet_mapDelete_ne key key' (m : EntryMap) :
  key <> key' -> mapGet key' (mapDelete key m) = mapGet key' m.
Proof.
  intros Hne. induction m as [| [k v] m IH]; simpl; [reflexivity |].
  destruct (String.eqb_spec k key) as [-> | Hk]; simpl.
  - destruct (String.eqb_spec key key'); [contradiction | assumption].
  - destruct (String.eqb k key'); auto.
Qed.

(** *** Single flight *)

Lemma get_joins_pending key now fetchFn (c : Cache) promise :
  mapGet key (cache c) = None ->
  fetchPromises c !! key = Some promise ->
  get key now fetchFn c = (Awaits promise, c).
Proof.
  intros Hget Hfp. unfold get, getBlocking. rewrite Hget, Hfp. reflexivity.
Qed.

Lemma getAll_joins_pending key calls (c : Cache) promise :
  mapGet key (cache c) = None ->
  fetchPromises c !! key = Some promise ->
  getAll key calls c = (repeat (Awaits promise) (List.length calls), c).
Proof.
  intros Hget Hfp. induction calls as [| [now fetchFn] calls IH]; simpl; [reflexivity |].
  rewrite (get_joins_pending _ _ _ _ _ Hget Hfp), IH. reflexivity.
Qed.

(** C1.  The key has no entry and no load in flight.  [N >= 1] calls of
    [get] for it, made before the load settles, whatever their clock
    readings and loaders: only the loader of the first call is invoked, and
    once; every call is handed the promise of that one load, so that when
    the loader settles each call settles the same way, with the value the
    loader produced (or with its rejection). *)
Theorem single_flight (key : string) (now0 : Z) (fetch0 : Loader)
    (others : list (Z * Loader)) (c : Cache) :
  mapGet key (cache c) = None ->
  fetchPromises c !! key = None ->
  let results := (getAll key ((now0, fetch0) :: others) c).1 in
  let c' := (getAll key ((now0, fetch0) :: others) c).2 in
  results = repeat (Awaits (nextPromise c)) (S (List.length others)) /\
  loaderCalls c' = loaderCalls c ++ [(key, fetch0)] /\
  forall outcome now,
    Forall (fun r =>
              outcomeOf (loaderSettles (nextPromise c) outcome now c') r
              = Some (settlementOf outcome))
           results.
Proof.
  intros Hget Hfp.
  set (c1 := (fetchAndCache key fetch0 false c).2).
  assert (Hget1 : mapGet key (cache c1) = None) by exact Hget.
  assert (Hfp1 : fetchPromises c1 !! key = Some (nextPromise c)).
  { subst c1. simpl. apply lookup_insert_eq. }
  assert (Hall : getAll key ((now0, fetch0) :: others) c
                 = (repeat (Awaits (nextPromise c)) (S (List.length others)), c1)).
  { simpl getAll. unfold get at 1, getBlocking. rewrite Hget, Hfp.
    change (fetchAndCache key fetch0 false c) with (nextPromise c, c1).
    cbv beta iota.
    rewrite (getAll_joins_pending key others c1 _ Hget1 Hfp1). reflexivity. }
  rewrite Hall. simpl fst. simpl snd. cbv zeta.
  split; [reflexivity |]. split; [reflexivity |].
  intros outcome now.
  assert (Hs : settled (loaderSettles (nextPromise c) outcome now c1) !! nextPromise c
               = Some (settlementOf outcome)).
  { unfold loaderSettles. subst c1. simpl. rewrite lookup_insert_eq.
    destruct outcome; simpl; apply lookup_insert_eq. }
  constructor; [exact Hs |].
  apply List.Forall_forall. intros r Hin. apply repeat_spec in Hin. subst r. exact Hs.
Qed.

(** *** The sort of the eviction *)

Lemma in_firstn_in {A : Type} (x : A) k l : In x (List.firstn k l) -> In x l.
Proof.
  intros H. rewrite <- (List.firstn_skipn k l). apply List.in_or_app. left. exact H.
Qed.

Lemma in_skipn_in {A : Type} (x : A) k l : In x (List.skipn k l) -> In x l.
Proof.
  intros H. rewrite <- (List.firstn_skipn k l). apply List.in_or_app. right. exact H.
Qed.

Lemma insertByLastAccessed_perm x l : Permutation (insertByLastAccessed x l) (x :: l).
Proof.
  induction l as [| y l IH]; simpl; [reflexivity |].
  destruct (snd x <=? snd y)%Z; [reflexivity |].
  rewrite IH. apply perm_swap.
Qed.

Lemma sortByLastAccessed_perm l : Permutation (sortByLastAccessed l) l.
Proof.
  induction l as [| x l IH]; simpl; [reflexivity |].
  rewrite insertByLastAccessed_perm. constructor. assumption.
Qed.

Lemma Forall_insertByLastAccessed (P : string * Z -> Prop) x l :
  P x -> List.Forall P l -> List.Forall P (insertByLastAccessed x l).
Proof.
  intros Hx Hl. induction Hl as [| y l Hy Hl IH]; simpl.
  - constructor; [assumption | constructor].
  - destruct (snd x <=? snd y)%Z; repeat constructor; assumption.
Qed.

Lemma insertByLastAccessed_sorted x l :
  StronglySorted olderOrEqual l -> StronglySorted olderOrEqual (insertByLastAccessed x l).
Proof.
  induction l as [| y l IH]; simpl; intros Hs.
  - constructor; constructor.
  - inversion Hs as [| ? ? Hs' Hall]; subst.
    destruct (snd x <=? snd y)%Z eqn:Hle.
    + apply Z.leb_le in Hle. constructor; [assumption |].
      constructor; [exact Hle |].
      eapply List.Forall_impl; [| exact Hall].
      intros z Hz. unfold olderOrEqual in *. lia.
    + apply Z.leb_gt in Hle. constructor; [auto |].
      apply Forall_insertByLastAccessed; [unfold olderOrEqual; lia | assumption].
Qed.

Lemma sortByLastAccessed_sorted l : StronglySorted olderOrEqual (sortByLastAccessed l).
Proof.
  induction l as [| x l IH]; simpl; [constructor |].
  apply insertByLastAccessed_sorted. assumption.
Qed.

Lemma sorted_firstn_skipn (l : list (string * Z)) k a b :
  StronglySorted olderOrEqual l ->
  In a (List.firstn k l) -> In b (List.skipn k l) -> olderOrEqual a b.
Proof.
  intros Hs. revert k. induction Hs as [| x l Hs IH Hall]; intros k Ha Hb.
  - destruct k; simpl in Ha; contradiction.
  - destruct k as [| k]; simpl in Ha, Hb; [contradiction |].
    destruct Ha as [<- | Ha].
    + rewrite List.Forall_forall in Hall. apply Hall.
      apply (in_skipn_in _ k l). exact Hb.
    + eauto.
Qed.

Lemma insertByLastAccessed_snoc x s y :
  (snd x <= snd y)%Z ->
  insertByLastAccessed x (s ++ [y]) = insertByLastAccessed x s ++ [y].
Proof.
  intros Hle. induction s as [| z s IH]; simpl.
  - apply Z.leb_le in Hle. rewrite Hle. reflexivity.
  - destruct (snd x <=? snd z)%Z; [reflexivity |]. rewrite IH. reflexivity.
Qed.

(** An element not older than any other, placed last, stays last. *)
Lemma sortByLastAccessed_snoc l y :
  (forall x, In x l -> (snd x <= snd y)%Z) ->
  sortByLastAccessed (l ++ [y]) = sortByLastAccessed l ++ [y].
Proof.
  induction l as [| x l IH]; intros Hall; simpl; [reflexivity |].
  rewrite IH by (intros z Hz; apply Hall; right; exact Hz).
  apply insertByLastAccessed_snoc. apply Hall. left. reflexivity.
Qed.

(** *** Deleting a batch of keys *)

Lemma mapGet_deleteAll_out doomed : forall (m : EntryMap) key,
  ~ In key (List.map fst doomed) -> mapGet key (deleteAll doomed m) = mapGet key m.
Proof.
  induction doomed as [| d doomed IH]; intros m key Hnot; simpl; [reflexivity |].
  simpl in Hnot. rewrite IH by tauto. apply mapGet_mapDelete_ne. tauto.
Qed.

Lemma mapGet_deleteAll_in doomed : forall (m : EntryMap) key,
  In key (List.map fst doomed) -> mapGet key (deleteAll doomed m) = None.
Proof.
  induction doomed as [| d doomed IH]; intros m key Hin; simpl in *; [contradiction |].
  destruct (in_dec string_dec key (List.map fst doomed)) as [Hin' | Hout].
  - apply IH. exact Hin'.
  - rewrite mapGet_deleteAll_out by assumption.
    destruct Hin as [<- | Hin]; [apply mapGet_mapDelete_eq | contradiction].
Qed.

Lemma NoDup_keys_deleteAll doomed : forall (m : EntryMap),
  List.NoDup (keys m) -> List.NoDup (keys (deleteAll doomed m)).
Proof.
  induction doomed as [| d doomed IH]; intros m Hnd; simpl; [assumption |].
  apply IH. apply NoDup_keys_mapDelete. assumption.
Qed.

Lemma length_mapDelete_le key (m : EntryMap) :
  (List.length (mapDelete key m) <= List.length m)%nat.
Proof. apply List.filter_length_le. Qed.

Lemma length_mapDelete_present key (m : EntryMap) :
  List.NoDup (keys m) -> In key (keys m) ->
  S (List.length (mapDelete key m)) = List.length m.
Proof.
  induction m as [| [k v] m IH]; simpl; [tauto |].
  intros Hnd Hin. inversion Hnd as [| ? ? Hnotin Hnd']; subst.
  destruct (String.eqb_spec k key) as [-> | Hne]; simpl.
  - f_equal. unfold mapDelete.
    rewrite List.forallb_filter_id; [reflexivity |].
    apply List.forallb_forall. intros [k' v'] Hin'. simpl.
    destruct (String.eqb_spec k' key) as [-> | ?]; [| reflexivity].
    exfalso. apply Hnotin. apply (in_map fst) in Hin'. exact Hin'.
  - f_equal. apply IH; [assumption |]. destruct Hin; [contradiction | assumption].
Qed.

Lemma length_deleteAll doomed : forall (m : EntryMap),
  List.NoDup (keys m) ->
  List.NoDup (List.map fst doomed) ->
  incl (List.map fst doomed) (keys m) ->
  (List.length (deleteAll doomed m) + List.length doomed = List.length m)%nat.
Proof.
  induction doomed as [| d doomed IH]; intros m Hnd Hdd Hincl; simpl; [lia |].
  simpl in Hdd. inversion Hdd as [| ? ? Hnotin Hdd']; subst.
  assert (Hd : In (fst d) (keys m)) by (apply Hincl; left; reflexivity).
  pose proof (length_mapDelete_present _ _ Hnd Hd) as Hlen.
  rewrite <- Hlen, <- (IH (mapDelete (fst d) m)); [lia | | assumption |].
  - apply NoDup_keys_mapDelete. assumption.
  - intros k Hk. rewrite keys_mapDelete. apply List.filter_In. split.
    + apply Hincl. right. exact Hk.
    + destruct (String.eqb_spec k (fst d)) as [-> | ?]; [contradiction | reflexivity].
Qed.

(** *** [evictLRUIfNeeded] *)

Lemma keys_accessTimes (m : EntryMap) : List.map fst (accessTimes m) = keys m.
Proof. unfold accessTimes, keys. rewrite List.map_map. reflexivity. Qed.

Lemma evictLRUIfNeeded_over (opts : CacheOptions) (m : EntryMap) n :
  maxEntries opts = Some n -> (1 <= n)%nat -> (n < List.length m)%nat ->
  evictLRUIfNeeded opts m
  = deleteAll (List.firstn (List.length m - n) (sortByLastAccessed (accessTimes m))) m.
Proof.
  intros Hmax Hn Hlen. unfold evictLRUIfNeeded. rewrite Hmax.
  destruct (Nat.eqb_spec n 0); [lia |].
  destruct (Nat.leb_spec (List.length m) n); [lia |]. reflexivity.
Qed.

Lemma evictLRUIfNeeded_within (opts : CacheOptions) (m : EntryMap) n :
  maxEntries opts = Some n -> (List.length m <= n)%nat -> evictLRUIfNeeded opts m = m.
Proof.
  intros Hmax Hlen. unfold evictLRUIfNeeded. rewrite Hmax.
  destruct (Nat.leb_spec (List.length m) n); [| lia].
  rewrite orb_true_r. reflexivity.
Qed.

Lemma NoDup_keys_evict (opts : CacheOptions) (m : EntryMap) :
  List.NoDup (keys m) -> List.NoDup (keys (evictLRUIfNeeded opts m)).
Proof.
  intros Hnd. unfold evictLRUIfNeeded.
  destruct (maxEntries opts) as [n |]; [| assumption].
  destruct ((n =? 0)%nat || (List.length m <=? n)%nat); [assumption |].
  apply NoDup_keys_deleteAll. assumption.
Qed.

Lemma doomed_keys (m : EntryMap) k :
  List.NoDup (keys m) ->
  let doomed := List.firstn k (sortByLastAccessed (accessTimes m)) in
  List.NoDup (List.map fst doomed) /\ incl (List.map fst doomed) (keys m).
Proof.
  intros Hnd doomed.
  pose proof (sortByLastAccessed_perm (accessTimes m)) as Hperm.
  apply (Permutation_map fst) in Hperm. rewrite keys_accessTimes in Hperm.
  assert (Hnd' : List.NoDup (List.map fst (sortByLastAccessed (accessTimes m)))).
  { eapply Permutation_NoDup; [symmetry; exact Hperm | exact Hnd]. }
  subst doomed. rewrite <- List.firstn_map. split.
  - rewrite <- (List.firstn_skipn k (List.map fst _)) in Hnd'.
    apply NoDup_app_remove_r in Hnd'. exact Hnd'.
  - intros x Hx. apply (Permutation_in _ Hperm). eapply in_firstn_in. exact Hx.
Qed.

(** With a positive [maxEntries], the eviction leaves exactly
    [min (size, maxEntries)] entries. *)
Lemma length_evict (opts : CacheOptions) (m : EntryMap) n :
  maxEntries opts = Some n -> (1 <= n)%nat -> List.NoDup (keys m) ->
  List.length (evictLRUIfNeeded opts m) = Nat.min (List.length m) n.
Proof.
  intros Hmax Hn Hnd.
  destruct (le_lt_dec (List.length m) n) as [Hle | Hlt].
  - rewrite (evictLRUIfNeeded_within _ _ _ Hmax Hle). lia.
  - rewrite (evictLRUIfNeeded_over _ _ _ Hmax Hn Hlt).
    destruct (doomed_keys m (List.length m - n) Hnd) as [Hdd Hincl].
    pose proof (length_deleteAll _ m Hnd Hdd Hincl) as Hlen.
    rewrite List.length_firstn in Hlen.
    assert (Hsz : List.length (sortByLastAccessed (accessTimes m)) = List.length m).
    { rewrite (Permutation_length (sortByLastAccessed_perm _)).
      unfold accessTimes. apply List.length_map. }
    rewrite Hsz in Hlen. lia.
Qed.

(** An entry the eviction removes was accessed no later than any entry it
    keeps. *)
Lemma evict_oldest_first (opts : CacheOptions) (m : EntryMap) k1 e1 k2 e2 :
  List.NoDup (keys m) ->
  mapGet k1 m = Some e1 ->
  mapGet k1 (evictLRUIfNeeded opts m) = None ->
  mapGet k2 (evictLRUIfNeeded opts m) = Some e2 ->
  (lastAccessed e1 <= lastAccessed e2)%Z.
Proof.
  intros Hnd H1 Hgone Hkept. unfold evictLRUIfNeeded in Hgone, Hkept.
  destruct (maxEntries opts) as [n |]; [| congruence].
  destruct ((n =? 0)%nat || (List.length m <=? n)%nat); [congruence |].
  change (mapGet k1 (deleteAll (List.firstn (List.length m - n)
                                   (sortByLastAccessed (accessTimes m))) m) = None)
    in Hgone.
  change (mapGet k2 (deleteAll (List.firstn (List.length m - n)
                                   (sortByLastAccessed (accessTimes m))) m) = Some e2)
    in Hkept.
  set (sorted := sortByLastAccessed (accessTimes m)) in *.
  set (k := (List.length m - n)%nat) in *.
  pose proof (sortByLastAccessed_perm (accessTimes m)) as Hperm. fold sorted in Hperm.
  assert (Hin : forall key entry, mapGet key m = Some entry ->
                                  In (key, lastAccessed entry) sorted).
  { intros key entry Hget. apply (Permutation_in _ (Permutation_sym Hperm)).
    unfold accessTimes. apply mapGet_In in Hget.
    apply (in_map (fun kv => (fst kv, lastAccessed (snd kv)))) in Hget. exact Hget. }
  assert (Huniq : forall key t, In (key, t) sorted ->
                                forall entry, mapGet key m = Some entry ->
                                              t = lastAccessed entry).
  { intros key t Hkt entry Hget. apply (Permutation_in _ Hperm) in Hkt.
    unfold accessTimes in Hkt. apply List.in_map_iff in Hkt.
    destruct Hkt as ([k' e'] & Heq & Hin'). simpl in Heq. inversion Heq; subst.
    rewrite (In_mapGet _ _ _ Hnd Hin') in Hget. congruence. }
  destruct (in_dec string_dec k1 (List.map fst (List.firstn k sorted))) as [Hd1 | Hd1];
    [| rewrite mapGet_deleteAll_out in Hgone by assumption; congruence].
  destruct (in_dec string_dec k2 (List.map fst (List.firstn k sorted))) as [Hd2 | Hd2];
    [rewrite mapGet_deleteAll_in in Hkept by assumption; congruence |].
  rewrite mapGet_deleteAll_out in Hkept by assumption.
  apply List.in_map_iff in Hd1. destruct Hd1 as ([k1' t1] & Hk1 & Hin1).
  simpl in Hk1. subst k1'.
  assert (Ht1 : t1 = lastAccessed e1).
  { eapply Huniq; [| exact H1]. eapply in_firstn_in. exact Hin1. }
  subst t1.
  assert (Hin2 : In (k2, lastAccessed e2) (List.skipn k sorted)).
  { pose proof (Hin _ _ Hkept) as Hs2.
    rewrite <- (List.firstn_skipn k sorted) in Hs2.
    apply List.in_app_or in Hs2. destruct Hs2 as [Hf | Hs2]; [| exact Hs2].
    exfalso. apply Hd2. apply (in_map fst) in Hf. exact Hf. }
  exact (sorted_firstn_skipn sorted k _ _ (sortByLastAccessed_sorted _) Hin1 Hin2).
Qed.

(** *** What the operations do to the entry map *)

Lemma length_mapSet_present key value (m : EntryMap) entry :
  mapGet key m = Some entry -> List.length (mapSet key value m) = List.length m.
Proof.
  intros Hget. pose proof (keys_mapSet_present key value m entry Hget) as Hk.
  apply (f_equal (@List.length string)) in Hk. unfold keys in Hk.
  rewrite !List.length_map in Hk. exact Hk.
Qed.

Lemma get_effect key now fetchFn (c : Cache) :
  options (get key now fetchFn c).2 = options c /\
  (cache (get key now fetchFn c).2 = cache c \/
   exists entry, mapGet key (cache c) = Some entry /\
                 cache (get key now fetchFn c).2 = mapSet key (touch entry now) (cache c)).
Proof.
  unfold get, getBlocking, refreshInBackground.
  destruct (mapGet key (cache c)) as [entry |] eqn:Hget.
  - destruct (now - timestamp entry <? maxAge (options c))%Z;
      [split; [reflexivity | right; eauto] |].
    destruct (now - timestamp entry <? staleWhileRevalidate (options c))%Z;
      [split; [reflexivity | right; eauto] |].
    destruct (fetchPromises c !! key); split; auto.
  - destruct (fetchPromises c !! key); split; auto.
Qed.

Lemma options_step (op : Op T E Loader) (c : Cache) : options (step op c) = options c.
Proof.
  destruct op; simpl; try reflexivity.
  - apply get_effect.
  - unfold loaderSettles. destruct (inflight c !! promise); [| reflexivity].
    destruct outcome; reflexivity.
  - unfold runCatchCallback. destruct (catchQueue c); reflexivity.
Qed.

Lemma NoDup_step (op : Op T E Loader) (c : Cache) :
  List.NoDup (keys (cache c)) -> List.NoDup (keys (cache (step op c))).
Proof.
  intros Hnd. destruct op; simpl; try assumption.
  - destruct (get_effect key now fetchFn c) as [_ [-> | (entry & _ & ->)]];
      [assumption | apply NoDup_keys_mapSet; assumption].
  - apply NoDup_keys_mapDelete. assumption.
  - constructor.
  - unfold loaderSettles. destruct (inflight c !! promise); [| assumption].
    destruct outcome; simpl; [| assumption].
    apply NoDup_keys_evict, NoDup_keys_mapSet. assumption.
  - unfold runCatchCallback. destruct (catchQueue c); assumption.
Qed.

Lemma capacity_step (op : Op T E Loader) (c : Cache) n :
  maxEntries (options c) = Some n -> (1 <= n)%nat ->
  List.NoDup (keys (cache c)) ->
  (List.length (cache c) <= n)%nat ->
  (List.length (cache (step op c)) <= n)%nat.
Proof.
  intros Hmax Hn Hnd Hlen. destruct op; simpl; try assumption.
  - destruct (get_effect key now fetchFn c) as [_ [-> | (entry & Hget & ->)]];
      [assumption |].
    rewrite (length_mapSet_present _ _ _ _ Hget). assumption.
  - pose proof (length_mapDelete_le key (cache c)). lia.
  - lia.
  - unfold loaderSettles. destruct (inflight c !! promise); [| assumption].
    destruct outcome; simpl; [| assumption].
    rewrite (length_evict _ _ n Hmax Hn) by (apply NoDup_keys_mapSet; assumption). lia.
  - unfold runCatchCallback. destruct (catchQueue c); assumption.
Qed.

Lemma runOps_invariant (ops : list (Op T E Loader)) : forall (c : Cache) n,
  maxEntries (options c) = Some n -> (1 <= n)%nat ->
  List.NoDup (keys (cache c)) ->
  (List.length (cache c) <= n)%nat ->
  options (runOps ops c) = options c /\
  List.NoDup (keys (cache (runOps ops c))) /\
  (List.length (cache (runOps ops c)) <= n)%nat.
Proof.
  induction ops as [| op ops IH]; intros c n Hmax Hn Hnd Hlen; simpl; [auto |].
  pose proof (options_step op c) as Hopt.
  destruct (IH (step op c) n) as (Ho & Hnd' & Hlen').
  - rewrite Hopt. assumption.
  - assumption.
  - apply NoDup_step. assumption.
  - apply capacity_step; assumption.
  - rewrite Ho, Hopt. auto.
Qed.

(** *** Invalidation during a load *)

Lemma mapGet_snoc_absent key value (m : EntryMap) :
  mapGet key m = None -> mapGet key (m ++ [(key, value)]) = Some value.
Proof.
  intros Hget. rewrite <- (mapSet_absent key value m Hget). apply mapGet_mapSet_eq.
Qed.

(** An entry written at a clock reading that no access time in the map
    exceeds, under a key the map does not hold, survives the eviction that
    follows the write. *)
Lemma evict_keeps_latest (opts : CacheOptions) (m : EntryMap) key value now :
  mapGet key m = None ->
  List.Forall (fun kv => (lastAccessed (snd kv) <= now)%Z) m ->
  mapGet key (evictLRUIfNeeded opts (m ++ [(key, mkEntry value now now)]))
  = Some (mkEntry value now now).
Proof.
  intros Hget Hall.
  set (written := m ++ [(key, mkEntry value now now)]).
  assert (Hw : mapGet key written = Some (mkEntry value now now))
    by (apply mapGet_snoc_absent; assumption).
  unfold evictLRUIfNeeded.
  destruct (maxEntries opts) as [n |]; [| exact Hw].
  destruct (Nat.eqb_spec n 0) as [-> | Hn0]; [exact Hw |]. simpl.
  destruct (Nat.leb_spec (List.length written) n) as [Hle | Hlt]; [exact Hw |].
  fold (accessTimes written).
  fold (deleteAll (List.firstn (List.length written - n)
                     (sortByLastAccessed (accessTimes written))) written).
  rewrite mapGet_deleteAll_out; [exact Hw |].
  assert (Hat : accessTimes written = accessTimes m ++ [(key, now)]).
  { unfold written, accessTimes. rewrite List.map_app. reflexivity. }
  rewrite Hat, sortByLastAccessed_snoc.
  - assert (Hk : (List.length written - n
                  <= List.length (sortByLastAccessed (accessTimes m)))%nat).
    { rewrite (Permutation_length (sortByLastAccessed_perm _)).
      unfold accessTimes, written. rewrite List.length_map, List.length_app. simpl. lia. }
    rewrite List.firstn_app.
    replace (List.length written - n - List.length (sortByLastAccessed (accessTimes m)))%nat
      with 0%nat by lia.
    simpl. rewrite List.app_nil_r. intros Hin.
    apply List.in_map_iff in Hin. destruct Hin as ([k t] & Hk' & Hin). simpl in Hk'. subst k.
    apply in_firstn_in in Hin.
    apply (Permutation_in _ (sortByLastAccessed_perm _)) in Hin.
    apply (in_map fst) in Hin. rewrite keys_accessTimes in Hin. simpl in Hin.
    apply mapGet_None_iff in Hget. contradiction.
  - intros [k t] Hin. unfold accessTimes in Hin. apply List.in_map_iff in Hin.
    destruct Hin as (kv & Heq & Hin). inversion Heq; subst. simpl.
    rewrite List.Forall_forall in Hall. apply (Hall kv Hin).
Qed.

Lemma Forall_mapDelete (P : string * CacheEntry T -> Prop) key (m : EntryMap) :
  List.Forall P m -> List.Forall P (mapDelete key m).
Proof.
  intros Hall. apply List.Forall_forall. intros kv Hin.
  apply List.filter_In in Hin. rewrite List.Forall_forall in Hall. apply Hall, Hin.
Qed.

(** C3, amended.  [invalidate(key)] is called while a load for [key] is in
    flight, and the load then succeeds at a clock reading that no access
    time in the cache exceeds: every consumer awaiting the load receives
    its value, and the value is written to the cache, which holds an entry
    for [key] afterwards. *)
Theorem invalidate_during_load (key : string) (promise : nat) (task : Task)
    (value : T) (now : Z) (c : Cache) :
  inflight c !! promise = Some task ->
  taskKey task = key ->
  List.Forall (fun kv => (lastAccessed (snd kv) <= now)%Z) (cache c) ->
  let c' := loaderSettles promise (inl value) now (invalidate key c) in
  outcomeOf c' (Awaits promise) = Some (Fulfilled value) /\
  mapGet key (cache c') = Some (mkEntry value now now) /\
  has key c' = true.
Proof.
  intros Htask Hkey Hall c'.
  assert (Hc' : mapGet key (cache c') = Some (mkEntry value now now)).
  { subst c'. unfold loaderSettles, invalidate. simpl. rewrite Htask, Hkey. simpl.
    rewrite mapSet_absent by apply mapGet_mapDelete_eq.
    apply evict_keeps_latest; [apply mapGet_mapDelete_eq |].
    apply Forall_mapDelete. assumption. }
  split; [| split; [exact Hc' | unfold has, mapHas; rewrite Hc'; reflexivity]].
  subst c'. unfold loaderSettles, invalidate. simpl. rewrite Htask. simpl.
  apply lookup_insert_eq.
Qed.

(** *** Stale reads *)

(** In the stale band [get] hands out the cached value and starts a load
    with the loader it was given, whether or not a load for the key is
    already recorded in [fetchPromises]. *)
Lemma get_stale_starts_load key now fetchFn (c : Cache) entry :
  mapGet key (cache c) = Some entry ->
  (maxAge (options c) <= now - timestamp entry < staleWhileRevalidate (options c))%Z ->
  (get key now fetchFn c).1 = Resolved (data entry) /\
  loaderCalls (get key now fetchFn c).2 = loaderCalls c ++ [(key, fetchFn)] /\
  fetchPromises (get key now fetchFn c).2 !! key = Some (nextPromise c).
Proof.
  intros Hget [Hge Hlt]. unfold get. rewrite Hget.
  destruct (Z.ltb_spec (now - timestamp entry) (maxAge (options c))); [lia |].
  destruct (Z.ltb_spec (now - timestamp entry) (staleWhileRevalidate (options c))); [| lia].
  simpl. repeat split. apply lookup_insert_eq.
Qed.

(** *** Loading and hitting, seen from the entry map *)

Lemma view_load (c : Cache) opts m next calls key now fetchFn value now' :
  view c opts m next calls ->
  mapGet key m = None ->
  view (step (OpSettle next (inl value) now') (step (OpGet key now fetchFn) c))
       opts (evictLRUIfNeeded opts (m ++ [(key, mkEntry value now' now')]))
       (S next) (calls ++ [(key, fetchFn)]).
Proof.
  intros (Ho & Hc & Hf & Hn & Hl) Hget. subst opts m next calls.
  simpl. unfold get, getBlocking. rewrite Hget, Hf, lookup_empty. simpl.
  unfold loaderSettles. simpl. rewrite lookup_insert_eq. simpl.
  rewrite (mapSet_absent _ _ _ Hget).
  repeat split. rewrite Hf, delete_insert_eq. apply delete_empty.
Qed.

Lemma view_hit (c : Cache) opts m next calls key now fetchFn entry :
  view c opts m next calls ->
  mapGet key m = Some entry ->
  (now - timestamp entry < maxAge opts)%Z ->
  (get key now fetchFn c).1 = Resolved (data entry) /\
  view (get key now fetchFn c).2 opts (mapSet key (touch entry now) m) next calls.
Proof.
  intros (Ho & Hc & Hf & Hn & Hl) Hget Hfresh. subst opts m next calls.
  unfold get. rewrite Hget.
  destruct (Z.ltb_spec (now - timestamp entry) (maxAge (options c))); [| lia].
  simpl. repeat split. assumption.
Qed.

Lemma oldest_of_four (tA' tB tC tD : Z) :
  (tB < tA')%Z -> (tB <= tC)%Z -> (tB <= tD)%Z ->
  List.firstn 1 (sortByLastAccessed [("A", tA'); ("B", tB); ("C", tC); ("D", tD)])
  = [("B", tB)].
Proof.
  intros H1 H2 H3. simpl.
  repeat match goal with
         | |- context [(?a <=? ?b)%Z] => destruct (Z.leb_spec a b); simpl
         end; try reflexivity; lia.
Qed.

Lemma runOps_nil (c : Cache) : runOps [] c = c.
Proof. reflexivity. Qed.

Lemma runOps_cons (op : Op T E Loader) ops (c : Cache) :
  runOps (op :: ops) c = runOps ops (step op c).
Proof. reflexivity. Qed.

Lemma lruScenario_view opts tA tB tC tA' tD vA vB vC vD loaderOf :
  maxEntries opts = Some 3%nat ->
  (tA' - tA < maxAge opts)%Z -> (tB < tA')%Z -> (tB <= tC)%Z -> (tB <= tD)%Z ->
  view (runOps (lruScenario (T:=T) (E:=E) (Loader:=Loader)
                 tA tB tC tA' tD vA vB vC vD loaderOf) (newCache opts))
       opts
       [ ("A", mkEntry vA tA tA'); ("C", mkEntry vC tC tC); ("D", mkEntry vD tD tD) ]
       4
       [ ("A", loaderOf "A"); ("B", loaderOf "B"); ("C", loaderOf "C");
         ("D", loaderOf "D") ].
Proof.
  intros Hmax Hfresh H1 H2 H3.
  assert (V0 : view (newCache opts : Cache) opts [] 0 []) by (repeat split).
  unfold lruScenario. rewrite !runOps_cons, runOps_nil.
  pose proof (view_load _ _ _ _ _ "A" tA (loaderOf "A") vA tA V0 eq_refl) as V1.
  rewrite (evictLRUIfNeeded_within opts _ 3 Hmax) in V1 by (simpl; lia).
  pose proof (view_load _ _ _ _ _ "B" tB (loaderOf "B") vB tB V1 eq_refl) as V2.
  rewrite (evictLRUIfNeeded_within opts _ 3 Hmax) in V2 by (simpl; lia).
  pose proof (view_load _ _ _ _ _ "C" tC (loaderOf "C") vC tC V2 eq_refl) as V3.
  rewrite (evictLRUIfNeeded_within opts _ 3 Hmax) in V3 by (simpl; lia).
  destruct (view_hit _ _ _ _ _ "A" tA' (loaderOf "A") (mkEntry vA tA tA) V3 eq_refl Hfresh)
    as [_ V4].
  pose proof (view_load _ _ _ _ _ "D" tD (loaderOf "D") vD tD V4 eq_refl) as V5.
  rewrite (evictLRUIfNeeded_over opts _ 3 Hmax) in V5 by (simpl; lia).
  simpl List.app in V5. simpl mapSet in V5. simpl List.length in V5.
  change (accessTimes _) with [("A", tA'); ("B", tB); ("C", tC); ("D", tD)] in V5.
  change (4 - 3)%nat with 1%nat in V5.
  rewrite (oldest_of_four tA' tB tC tD H1 H2 H3) in V5.
  exact V5.
Qed.

(** C8, amended.  [maxEntries] is set to a positive number [n].  In every
    state the cache reaches, it holds at most [n] entries.  Every successful
    write (whatever started the load that settles) leaves
    [min (count, n)] entries, [count] being the number of entries once the
    new one is written, and every entry it removes was accessed no later
    than every entry it keeps.  With [n = 3]: A, B and C are loaded, A is
    read again within its fresh window and later than B was loaded, D is
    loaded no earlier than B; then exactly B is gone, and A, C and D,
    read while fresh, are served from the cache without any loader being
    invoked. *)
Theorem lru_capacity (opts : CacheOptions) (n : nat) :
  maxEntries opts = Some n -> (1 <= n)%nat ->
  (forall ops : list (Op T E Loader),
      (List.length (cache (runOps ops (newCache opts))) <= n)%nat) /\
  (forall (ops : list (Op T E Loader)) promise task value now,
      let c := runOps ops (newCache opts) in
      inflight c !! promise = Some task ->
      let written := mapSet (taskKey task) (mkEntry value now now) (cache c) in
      let c' := loaderSettles promise (inl value) now c in
      List.length (cache c') = Nat.min (List.length written) n /\
      forall k1 e1 k2 e2,
        mapGet k1 written = Some e1 -> mapGet k1 (cache c') = None ->
        mapGet k2 (cache c') = Some e2 ->
        (lastAccessed e1 <= lastAccessed e2)%Z) /\
  (n = 3%nat ->
   forall tA tB tC tA' tD vA vB vC vD loaderOf,
     (tA' - tA < maxAge opts)%Z -> (tB < tA')%Z -> (tB <= tC)%Z -> (tB <= tD)%Z ->
     let c := runOps (lruScenario (T:=T) (E:=E) (Loader:=Loader)
                 tA tB tC tA' tD vA vB vC vD loaderOf) (newCache opts) in
     has "A" c = true /\ has "B" c = false /\ has "C" c = true /\ has "D" c = true /\
     forall t1 t2 t3 g,
       (t1 - tA < maxAge opts)%Z -> (t2 - tC < maxAge opts)%Z ->
       (t3 - tD < maxAge opts)%Z ->
       let r1 := get "A" t1 g c in
       let r2 := get "C" t2 g r1.2 in
       let r3 := get "D" t3 g r2.2 in
       r1.1 = Resolved vA /\ r2.1 = Resolved vC /\ r3.1 = Resolved vD /\
       loaderCalls r3.2 = loaderCalls c).
Proof.
  intros Hmax Hn.
  assert (Hinv : forall ops : list (Op T E Loader),
             options (runOps ops (newCache opts)) = opts /\
             List.NoDup (keys (cache (runOps ops (newCache opts)))) /\
             (List.length (cache (runOps ops (newCache opts))) <= n)%nat).
  { intros ops. apply (runOps_invariant ops (newCache opts) n); simpl;
      [assumption | assumption | constructor | lia]. }
  split; [intros ops; apply Hinv |]. split.
  - intros ops promise task value now c Htask written c'.
    destruct (Hinv ops) as (Ho & Hnd & _). fold c in Ho, Hnd.
    assert (Hc' : cache c' = evictLRUIfNeeded opts written).
    { subst c'. unfold loaderSettles. rewrite Htask. simpl. rewrite Ho. reflexivity. }
    assert (Hndw : List.NoDup (keys written)) by (apply NoDup_keys_mapSet; assumption).
    rewrite Hc'. split; [apply length_evict; assumption |].
    intros k1 e1 k2 e2. apply evict_oldest_first. assumption.
  - intros -> tA tB tC tA' tD vA vB vC vD loaderOf Hfresh H1 H2 H3 c.
    pose proof (lruScenario_view opts tA tB tC tA' tD vA vB vC vD loaderOf
                  Hmax Hfresh H1 H2 H3) as V. fold c in V. clearbody c.
    assert (Hcache : cache c = [ ("A", mkEntry vA tA tA'); ("C", mkEntry vC tC tC);
                                 ("D", mkEntry vD tD tD) ]) by apply V.
    split; [unfold has, mapHas; rewrite Hcache; reflexivity |].
    split; [unfold has, mapHas; rewrite Hcache; reflexivity |].
    split; [unfold has, mapHas; rewrite Hcache; reflexivity |].
    split; [unfold has, mapHas; rewrite Hcache; reflexivity |].
    intros t1 t2 t3 g F1 F2 F3 r1 r2 r3.
    destruct (view_hit _ _ _ _ _ "A" t1 g (mkEntry vA tA tA') V eq_refl F1) as [R1 V1].
    fold r1 in R1, V1. simpl mapSet in V1.
    destruct (view_hit _ _ _ _ _ "C" t2 g (mkEntry vC tC tC) V1 eq_refl F2) as [R2 V2].
    fold r2 in R2, V2. simpl mapSet in V2.
    destruct (view_hit _ _ _ _ _ "D" t3 g (mkEntry vD tD tD) V2 eq_refl F3) as [R3 V3].
    fold r3 in R3, V3.
    split; [exact R1 |]. split; [exact R2 |]. split; [exact R3 |].
    destruct V as (_ & _ & _ & _ & ->). apply V3.
Qed.

End Facts.

(** *** Concrete runs *)

Lemma single_flight_witness :
  (getAll "story" [(0, 1%nat); (1, 2%nat); (2, 3%nat)]%Z testCache).1
  = [Awaits 0; Awaits 0; Awaits 0] /\
  loaderCalls (getAll "story" [(0, 1%nat); (1, 2%nat); (2, 3%nat)]%Z testCache).2
  = [("story", 1%nat)].
Proof.
  pose proof (single_flight "story" 0%Z 1%nat [(1, 2%nat); (2, 3%nat)]%Z testCache
                eq_refl eq_refl) as H.
  destruct H as (H1 & H2 & _). split; [exact H1 | exact H2].
Defined.

(** C2 on the code: both reads return the stale value at once, a
    revalidation is recorded as in flight when the second read is made, and
    yet each read invokes its loader: two invocations, not one. *)
Theorem stale_reads_invoke_loader_twice :
  let first := get "k" 150%Z 2%nat staleReads in
  let second := get "k" 160%Z 3%nat first.2 in
  first.1 = Resolved "old" /\
  second.1 = Resolved "old" /\
  fetchPromises first.2 !! "k" = Some 1%nat /\
  loaderCalls second.2 = loaderCalls staleReads ++ [("k", 2%nat); ("k", 3%nat)].
Proof. repeat split; vm_compute; reflexivity. Qed.

(** C3, as stated, fails: the load (promise 0) is in flight when the key is
    invalidated, and once it has settled the cache does hold an entry for
    the key. *)
Lemma invalidate_during_load_counterexample :
  inflight invalidatedLoad !! 0%nat = Some (mkTask "k" false) /\
  has "k" (loaderSettles 0 (inl "v") 10%Z invalidatedLoad) = true.
Proof. split; vm_compute; reflexivity. Qed.

Lemma invalidate_during_load_witness :
  outcomeOf (loaderSettles 0 (inl "v") 10%Z
               (invalidate "k" (step (OpGet "k" 0%Z 1%nat) testCache)))
            (Awaits 0)
  = Some (Fulfilled "v") /\
  has "k" (loaderSettles 0 (inl "v") 10%Z
             (invalidate "k" (step (OpGet "k" 0%Z 1%nat) testCache))) = true.
Proof.
  pose proof (invalidate_during_load "k" 0%nat (mkTask "k" false) "v" 10%Z
                (step (OpGet "k" 0%Z 1%nat) testCache)
                eq_refl eq_refl (List.Forall_nil _)) as H.
  destruct H as (H1 & _ & H3). split; [exact H1 | exact H3].
Defined.

(** C8, as stated, fails: [maxEntries] is set, to 0, and after a successful
    write the cache holds one entry. *)
Lemma lru_capacity_counterexample :
  maxEntries (options zeroCapacity) = Some 0%nat /\
  List.length
    (cache (runOps [ OpGet "A" 100%Z 1%nat; OpSettle 0 (inl "value1") 100%Z ] zeroCapacity))
  = 1%nat.
Proof. split; vm_compute; reflexivity. Qed.

(** When the five steps fall on one clock reading, the access times tie and
    the stable sort leaves A first: A is evicted and B stays. *)
Example lru_ties_evict_in_insertion_order :
  has "A" lruSameReading = false /\ has "B" lruSameReading = true /\
  has "C" lruSameReading = true /\ has "D" lruSameReading = true.
Proof. repeat split; vm_compute; reflexivity. Qed.

Lemma lru_capacity_witness :
  (List.length (cache lruTestRun) <= 3)%nat /\
  List.length (cache (loaderSettles 4 (inl "value5") 600%Z
                        (step (OpGet "E" 600%Z 0%nat) lruTestRun)))
  = Nat.min (List.length (mapSet "E" (mkEntry "value5" 600%Z 600%Z) (cache lruTestRun))) 3 /\
  has "A" lruTestRun = true /\ has "B" lruTestRun = false /\
  has "C" lruTestRun = true /\ has "D" lruTestRun = true.
Proof.
  destruct (@lru_capacity string string nat lruOptions 3 eq_refl (le_S _ _ (le_S _ _ (le_n 1))))
    as (Hcap & Hwrite & Hscenario).
  split; [apply Hcap |]. split.
  - apply (Hwrite (lruScenario 100 200 300 400 500 "value1" "value2" "value3" "value4"
                     (fun _ => 0%nat) ++ [OpGet "E" 600%Z 0%nat])
                  4%nat (mkTask "E" false) "value5" 600%Z).
    vm_compute. reflexivity.
  - destruct (Hscenario eq_refl 100%Z 200%Z 300%Z 400%Z 500%Z
                "value1" "value2" "value3" "value4" (fun _ => 0%nat))
      as (HA & HB & HC & HD & _); [simpl; lia | lia | lia | lia |].
    repeat split; assumption.
Defined.

End CacheFacts.

(** ** The limiter and the recursive calls *)
Module SchedulingFacts.
Import TreeSpec DeepThread.
Import Errors Utilities Api Scheduling.

Lemma Job_nested_ind (P : Job -> Prop) :
  (forall kidId levels, P (Queued kidId levels)) ->
  (forall kidId levels, P (Fetching kidId levels)) ->
  (forall item kids, List.Forall P kids -> P (Waiting item kids)) ->
  (forall reply, P (Finished reply)) ->
  forall job, P job.
Proof.
  intros Hq Hf Hw Hd. fix IH 1. intros [kidId levels | kidId levels | item kids | reply].
  - apply Hq.
  - apply Hf.
  - apply Hw. induction kids as [| kid kids IHkids]; constructor; [apply IH | exact IHkids].
  - apply Hd.
Qed.

Lemma total_app {A : Type} (count : A -> nat) (l1 l2 : list A) :
  total count (l1 ++ l2) = (total count l1 + total count l2)%nat.
Proof. induction l1 as [| x l1 IH]; simpl; [reflexivity | rewrite IH; lia]. Qed.

Lemma total_map {A B : Type} (f : A -> B) (count : B -> nat) (l : list A) :
  total count (List.map f l) = total (fun x => count (f x)) l.
Proof. induction l as [| x l IH]; simpl; [reflexivity | rewrite IH; reflexivity]. Qed.



(** A move of a list changes exactly one of its elements. *)
Lemma in_oneOf {A : Type} (f : A -> list A) (l l' : list A) :
  List.In l' (oneOf f l) ->
  exists before x x' after,
    l = before ++ x :: after /\ List.In x' (f x) /\ l' = before ++ x' :: after.
Proof.
  revert l'. induction l as [| y l IH]; intros l' Hin; simpl in Hin; [contradiction |].
  apply List.in_app_or in Hin. destruct Hin as [Hin | Hin];
    apply List.in_map_iff in Hin.
  - destruct Hin as (y' & <- & Hy'). exists [], y, y', l. auto.
  - destruct Hin as (rest & <- & Hrest).
    destruct (IH rest Hrest) as (before & x & x' & after & -> & Hx' & ->).
    exists (y :: before), x, x', after. auto.
Qed.


Section Facts.

Variable getItem : Z -> Completion HackerNewsItem.
Variable maxConcurrent : option nat.

(** *** What a move leaves unchanged *)

Lemma finishedReplies_replies kids replies :
  finishedReplies kids = Some replies -> List.map (jobReply getItem) kids = replies.
Proof.
  revert replies. induction kids as [| kid kids IH]; intros replies; simpl.
  - intros [= <-]. reflexivity.
  - destruct kid; try discriminate. simpl.
    destruct (finishedReplies kids) as [rest |]; [| discriminate].
    intros [= <-]. rewrite (IH rest eq_refl). reflexivity.
Qed.

Lemma scheduleKids_replies item levels :
  List.map (jobReply getItem) (scheduleKids item levels)
  = List.map (fun kidId => match materialize getItem levels kidId with
                           | Normal reply => reply
                           | Abrupt _ => placeholder kidId
                           end)
             (default [] (kids item)).
Proof. unfold scheduleKids. rewrite List.map_map. reflexivity. Qed.

Lemma afterFetch_reply kidId levels :
  jobReply getItem (afterFetch getItem kidId levels) = replyFor getItem levels kidId.
Proof.
  unfold afterFetch, replyFor.
  destruct levels as [| levels]; simpl; destruct (getItem kidId) as [item | error];
    try reflexivity.
  destruct (noKids item); [reflexivity |].
  simpl. rewrite scheduleKids_replies. reflexivity.
Qed.

Lemma callAfterFetch_result itemId levels :
  callResult getItem (callAfterFetch getItem itemId levels)
  = materialize getItem levels itemId.
Proof.
  unfold callAfterFetch.
  destruct levels as [| levels]; simpl; destruct (getItem itemId) as [item | error];
    try reflexivity.
  destruct (noKids item); [reflexivity |].
  simpl. rewrite scheduleKids_replies. reflexivity.
Qed.

Lemma moves_reply free job : forall job',
  List.In job' (moves getItem free job) -> jobReply getItem job' = jobReply getItem job.
Proof.
  induction job as [kidId levels | kidId levels | item kids IH | reply]
    using Job_nested_ind; intros job' Hin; simpl in Hin.
  - destruct free; [| contradiction]. destruct Hin as [<- | []]. reflexivity.
  - destruct Hin as [<- | []]. apply afterFetch_reply.
  - apply List.in_app_or in Hin. destruct Hin as [Hin | Hin].
    + destruct (finishedReplies kids) as [replies |] eqn:Hdone; [| contradiction].
      destruct Hin as [<- | []]. simpl.
      rewrite (finishedReplies_replies _ _ Hdone). reflexivity.
    + apply List.in_map_iff in Hin. destruct Hin as (kids' & <- & Hkids').
      apply in_oneOf in Hkids'.
      destruct Hkids' as (before & kid & kid' & after & -> & Hkid' & ->).
      simpl. rewrite !List.map_app. simpl.
      apply List.Forall_app in IH. destruct IH as [_ IH].
      inversion IH as [| ? ? Hkid _]; subst.
      rewrite (Hkid kid' Hkid'). reflexivity.
  - contradiction.
Qed.

Lemma steps_result c c' :
  List.In c' (steps getItem maxConcurrent c) -> callResult getItem c' = callResult getItem c.
Proof.
  destruct c as [itemId levels | item kids | result]; simpl; intros Hin.
  - destruct Hin as [<- | []]. apply callAfterFetch_result.
  - apply List.in_app_or in Hin. destruct Hin as [Hin | Hin].
    + destruct (finishedReplies kids) as [replies |] eqn:Hdone; [| contradiction].
      destruct Hin as [<- | []]. simpl.
      rewrite (finishedReplies_replies _ _ Hdone). reflexivity.
    + apply List.in_map_iff in Hin. destruct Hin as (kids' & <- & Hkids').
      apply in_oneOf in Hkids'.
      destruct Hkids' as (before & kid & kid' & after & -> & Hkid' & ->).
      simpl. rewrite !List.map_app. simpl.
      rewrite (moves_reply _ _ _ Hkid'). reflexivity.
  - contradiction.
Qed.

Lemma reaches_result c c' :
  Reaches getItem maxConcurrent c c' -> callResult getItem c' = callResult getItem c.
Proof.
  induction 1 as [c | c c' c'' Hstep _ IH]; [reflexivity |].
  rewrite IH. apply (steps_result _ _ Hstep).
Qed.

(** *** Every move uses up an event *)

Lemma afterFetch_events kidId levels :
  (eventsLeft getItem (afterFetch getItem kidId levels) < fetchEvents getItem levels kidId)%nat.
Proof.
  unfold afterFetch.
  destruct levels as [| levels]; simpl; destruct (getItem kidId) as [item | error];
    simpl; try lia.
  destruct (noKids item); simpl; [lia |].
  unfold scheduleKids. rewrite total_map. simpl. lia.
Qed.

Lemma callAfterFetch_events itemId levels :
  (callEventsLeft getItem (callAfterFetch getItem itemId levels)
   < fetchEvents getItem levels itemId)%nat.
Proof.
  unfold callAfterFetch.
  destruct levels as [| levels]; simpl; destruct (getItem itemId) as [item | error];
    simpl; try lia.
  destruct (noKids item); simpl; [lia |].
  unfold scheduleKids. rewrite total_map. simpl. lia.
Qed.

Lemma moves_events free job : forall job',
  List.In job' (moves getItem free job) ->
  (eventsLeft getItem job' < eventsLeft getItem job)%nat.
Proof.
  induction job as [kidId levels | kidId levels | item kids IH | reply]
    using Job_nested_ind; intros job' Hin; simpl in Hin.
  - destruct free; [| contradiction]. destruct Hin as [<- | []]. simpl. lia.
  - destruct Hin as [<- | []]. apply afterFetch_events.
  - apply List.in_app_or in Hin. destruct Hin as [Hin | Hin].
    + destruct (finishedReplies kids); [| contradiction].
      destruct Hin as [<- | []]. simpl. lia.
    + apply List.in_map_iff in Hin. destruct Hin as (kids' & <- & Hkids').
      apply in_oneOf in Hkids'.
      destruct Hkids' as (before & kid & kid' & after & -> & Hkid' & ->).
      simpl. rewrite !total_app. simpl.
      apply List.Forall_app in IH. destruct IH as [_ IH].
      inversion IH as [| ? ? Hkid _]; subst.
      specialize (Hkid kid' Hkid'). lia.
  - contradiction.
Qed.

Lemma steps_events c c' :
  List.In c' (steps getItem maxConcurrent c) ->
  (callEventsLeft getItem c' < callEventsLeft getItem c)%nat.
Proof.
  destruct c as [itemId levels | item kids | result]; simpl; intros Hin.
  - destruct Hin as [<- | []]. apply callAfterFetch_events.
  - apply List.in_app_or in Hin. destruct Hin as [Hin | Hin].
    + destruct (finishedReplies kids); [| contradiction].
      destruct Hin as [<- | []]. simpl. lia.
    + apply List.in_map_iff in Hin. destruct Hin as (kids' & <- & Hkids').
      apply in_oneOf in Hkids'.
      destruct Hkids' as (before & kid & kid' & after & -> & Hkid' & ->).
      simpl. rewrite !total_app. simpl.
      pose proof (moves_events _ _ _ Hkid'). lia.
  - contradiction.
Qed.

(** *** The jobs that wait never outnumber those that may *)







(** *** A state without moves *)







(** A call that settles for every order of the events cannot reach a
    stuck state, and what it settles with is fixed. *)
Lemma settles_reaches c result :
  Settles getItem maxConcurrent c result ->
  forall c', Reaches getItem maxConcurrent c c' -> Settles getItem maxConcurrent c' result.
Proof.
  intros Hsettles c' Hreach. induction Hreach as [c | c c1 c2 Hstep _ IH];
    [assumption |].
  apply IH. inversion Hsettles as [| ? ? _ Hall]; subst; [contradiction |].
  apply Hall, Hstep.
Qed.

(** Every run ends: a state without a move is reached. *)
Lemma reaches_end : forall bound c,
  (callEventsLeft getItem c <= bound)%nat ->
  exists c', Reaches getItem maxConcurrent c c' /\ steps getItem maxConcurrent c' = [].
Proof.
  induction bound as [| bound IH]; intros c Hbound;
    destruct (steps getItem maxConcurrent c) as [| c1 rest] eqn:Hsteps.
  - exists c. split; [apply reaches_here | exact Hsteps].
  - pose proof (steps_events c c1 ltac:(rewrite Hsteps; left; reflexivity)). lia.
  - exists c. split; [apply reaches_here | exact Hsteps].
  - assert (Hin : List.In c1 (steps getItem maxConcurrent c))
      by (rewrite Hsteps; left; reflexivity).
    destruct (IH c1 ltac:(pose proof (steps_events c c1 Hin); lia)) as (c' & Hreach & Hend).
    exists c'. split; [exact (reaches_on _ _ c c1 c' Hin Hreach) | exact Hend].
Qed.

(** *** The levels of jobs that a limiter lets start *)

Lemma highest_app {A : Type} (count : A -> nat) (l1 l2 : list A) :
  highest count (l1 ++ l2) = Nat.max (highest count l1) (highest count l2).
Proof. induction l1 as [| x l1 IH]; simpl; [reflexivity | rewrite IH; lia]. Qed.

Lemma highest_filter {A : Type} (count : A -> nat) (keep : A -> bool) (l : list A) :
  (highest count (List.filter keep l) <= highest count l)%nat.
Proof. induction l as [| x l IH]; simpl; [lia |]. destruct (keep x); simpl; lia. Qed.

Lemma highest_zero {A : Type} (count : A -> nat) (l : list A) :
  List.Forall (fun x => count x = 0%nat) l -> highest count l = 0%nat.
Proof. induction 1 as [| x l Hx Hl IH]; simpl; [reflexivity | lia]. Qed.

Lemma depth_node item replies :
  TreeShape.depth (Tree item replies)
  = highest (fun reply => S (TreeShape.depth reply)) replies.
Proof. reflexivity. Qed.

Lemma finishedReplies_depth kids replies :
  finishedReplies kids = Some replies ->
  highest (fun reply => S (TreeShape.depth reply)) replies = highest startedDepth kids.
Proof.
  revert replies. induction kids as [| kid kids IH]; intros replies; simpl.
  - intros [= <-]. reflexivity.
  - destruct kid; try discriminate. simpl.
    destruct (finishedReplies kids) as [rest |]; [| discriminate].
    intros [= <-]. simpl. rewrite (IH rest eq_refl). reflexivity.
Qed.

Lemma finished_depth item kids replies :
  finishedReplies kids = Some replies ->
  (TreeShape.depth (Tree item (validReplies replies)) <= highest startedDepth kids)%nat.
Proof.
  intros Hdone. rewrite depth_node, <- (finishedReplies_depth _ _ Hdone).
  apply highest_filter.
Qed.

Lemma scheduleKids_depth item levels :
  highest startedDepth (scheduleKids item levels) = 0%nat.
Proof.
  apply highest_zero. apply List.Forall_forall. intros job Hin.
  unfold scheduleKids in Hin. apply List.in_map_iff in Hin.
  destruct Hin as (kidId & <- & _). reflexivity.
Qed.

Lemma afterFetch_depth kidId levels :
  startedDepth (afterFetch getItem kidId levels) = 1%nat.
Proof.
  unfold afterFetch.
  destruct levels as [| levels]; destruct (getItem kidId) as [item | error];
    try reflexivity.
  destruct (noKids item); [reflexivity |].
  simpl. rewrite scheduleKids_depth. reflexivity.
Qed.

Lemma running_in_list (before after : list Job) kid :
  (running kid <= total running (before ++ kid :: after))%nat.
Proof. rewrite total_app. simpl. lia. Qed.

(** A move starts a new level only by starting a job, and then every level
    above it holds a slot. *)
Lemma moves_depth free job : forall job',
  List.In job' (moves getItem free job) ->
  (startedDepth job' <= Nat.max (startedDepth job) (if free then S (running job) else 0))%nat.
Proof.
  induction job as [kidId levels | kidId levels | item kids IH | reply]
    using Job_nested_ind; intros job' Hin; simpl in Hin.
  - destruct free; [| contradiction]. destruct Hin as [<- | []]. simpl. lia.
  - destruct Hin as [<- | []]. rewrite afterFetch_depth. simpl. lia.
  - apply List.in_app_or in Hin. destruct Hin as [Hin | Hin].
    + destruct (finishedReplies kids) as [replies |] eqn:Hdone; [| contradiction].
      destruct Hin as [<- | []].
      pose proof (finished_depth item kids replies Hdone).
      cbn [startedDepth]. lia.
    + apply List.in_map_iff in Hin. destruct Hin as (kids' & <- & Hkids').
      apply in_oneOf in Hkids'.
      destruct Hkids' as (before & kid & kid' & after & -> & Hkid' & ->).
      apply List.Forall_app in IH. destruct IH as [_ IH].
      inversion IH as [| ? ? Hkid _]; subst.
      specialize (Hkid kid' Hkid').
      pose proof (running_in_list before after kid).
      cbn [startedDepth running]. rewrite !highest_app. simpl.
      destruct free; lia.
  - contradiction.
Qed.

Lemma steps_depth limit c c' :
  maxConcurrent = Some limit ->
  List.In c' (steps getItem maxConcurrent c) ->
  (callDepth c <= limit)%nat -> (callDepth c' <= limit)%nat.
Proof.
  intros Hlimit Hin Hdepth.
  destruct c as [itemId levels | item kids | result]; simpl in Hin.
  - destruct Hin as [<- | []]. unfold callAfterFetch.
    destruct levels as [| levels]; destruct (getItem itemId) as [root | error];
      simpl; try lia.
    destruct (noKids root); simpl; [lia |].
    rewrite scheduleKids_depth. lia.
  - apply List.in_app_or in Hin. destruct Hin as [Hin | Hin].
    + destruct (finishedReplies kids) as [replies |] eqn:Hdone; [| contradiction].
      destruct Hin as [<- | []].
      pose proof (finished_depth item kids replies Hdone).
      simpl in Hdepth. cbn [callDepth]. lia.
    + apply List.in_map_iff in Hin. destruct Hin as (kids' & <- & Hkids').
      apply in_oneOf in Hkids'.
      destruct Hkids' as (before & kid & kid' & after & Hkids & Hkid' & ->).
      pose proof (moves_depth _ _ _ Hkid') as Hmove.
      unfold hasFreeSlot in Hmove. rewrite Hlimit in Hmove.
      subst kids. pose proof (running_in_list before after kid).
      simpl in Hdepth. rewrite highest_app in Hdepth. simpl in Hdepth.
      simpl. rewrite highest_app. simpl.
      destruct (Nat.ltb_spec (total running (before ++ kid :: after)) limit); lia.
  - contradiction.
Qed.

Lemma reaches_depth limit c c' :
  maxConcurrent = Some limit ->
  Reaches getItem maxConcurrent c c' ->
  (callDepth c <= limit)%nat -> (callDepth c' <= limit)%nat.
Proof.
  intros Hlimit. induction 1 as [c | c c1 c2 Hstep _ IH]; [auto |].
  intros Hdepth. apply IH. exact (steps_depth limit c c1 Hlimit Hstep Hdepth).
Qed.

End Facts.

End SchedulingFacts.

(** ** The comment tree *)
Module TreeFacts.
Import TreeSpec.
Import Errors Utilities Api Scheduling SchedulingFacts.

Section Facts.

Variable getItem : Z -> Completion HackerNewsItem.

(** A node whose item resolves is materialized, whatever happens below
    it. *)
Lemma materialize_resolved left itemId item :
  getItem itemId = Normal item ->
  exists replies, materialize getItem left itemId = Normal (Tree item replies).
Proof.
  intros Hitem. destruct left as [| left]; simpl; rewrite Hitem.
  - eauto.
  - destruct (noKids item); eauto.
Qed.

(** A failure below the root is never thrown by the root. *)
Lemma materialize_throws_only_at_root left itemId error :
  materialize getItem left itemId = Abrupt error -> getItem itemId = Abrupt error.
Proof.
  destruct left as [| left]; simpl; destruct (getItem itemId) as [item | e];
    try congruence.
  destruct (noKids item); congruence.
Qed.



End Facts.



End TreeFacts.

(** ** The retry loop *)
Module RetryFacts.
Import RetrySpec.
Import Js Errors Utilities.

Lemma signalAborted_mono plan i j :
  (i <= j)%nat -> signalAborted plan i = true -> signalAborted plan j = true.
Proof.
  destruct plan; simpl; auto.
  rewrite !Nat.ltb_lt. lia.
Qed.

Lemma quiet_nil plan : quiet plan [].
Proof. intros i Hi. simpl in Hi. lia. Qed.

Lemma quiet_snoc plan tr ev :
  quiet plan tr -> signalAborted plan (List.length tr) = false -> quiet plan (tr ++ [ev]).
Proof.
  intros Hq Hn i Hi. rewrite length_app in Hi. simpl in Hi.
  destruct (Nat.eq_dec i (List.length tr)) as [-> | Hne]; [assumption |].
  apply Hq. lia.
Qed.

Lemma fetchCount_snoc tr ev :
  fetchCount (tr ++ [ev]) = (fetchCount tr + (if isFetch ev then 1 else 0))%nat.
Proof.
  unfold fetchCount. rewrite List.filter_app, length_app. simpl.
  destruct (isFetch ev); reflexivity.
Qed.

(** One iteration of the loop, entered with as many calls made as attempts
    completed.  Nothing is started after the abort; an iteration that goes
    on has made its call and had retries left; and if the abort has been
    requested by the end of the iteration, the iteration throws the abort
    error, or its call was the last await and either the loop goes on or
    that call ends the run. *)
Lemma attempt_spec env opts run :
  Good (abortPlan env) run ->
  let res := tryCatch (tryBlock env opts (calls run)) (catchClause opts (calls run)) run in
  Good (abortPlan env) res.2 /\
  (res.1 = Normal None ->
   calls res.2 = S (calls run) /\ (calls run < maxRetries opts)%nat) /\
  (signalAborted (abortPlan env) (List.length (trace res.2)) = true ->
   res.1 = Abrupt abortError \/
   (endsWithFetch (trace res.2) /\ calls res.2 = S (calls run) /\
    (res.1 = Normal None \/
     wouldRetry opts (calls run) (transport env (calls run)) = false))).
Proof.
  intros [Hq Hc].
  unfold tryCatch, tryBlock, catchClause, bind, throwIfAborted, sleep, fetch, random,
    setLastError, ret, throw, wouldRetry.
  repeat case_match; simplify_eq/=.
  all: repeat match goal with
         | H1 : transport ?e ?c = _, H2 : transport ?e ?c = _ |- _ =>
             rewrite H1 in H2; simplify_eq
         end.
  all: unfold Good, endsWithFetch; simpl.
  all: split; [split;
         [ repeat (apply quiet_snoc; [| assumption]); assumption
         | rewrite ?fetchCount_snoc; simpl; lia ] |].
  all: split;
         [ intros Heq; first [discriminate | split; [reflexivity | apply Nat.ltb_lt; assumption]]
         |].
  all: intros Hab; try congruence.
  all: try (left; reflexivity).
  all: right; split; [eexists; reflexivity |]; split; [reflexivity |].
  all: try (left; reflexivity).
  all: right.
  all: repeat match goal with
         | H : ?t = true |- context [?t] => rewrite H
         | H : ?t = false |- context [?t] => rewrite H
         end; simpl; rewrite ?andb_false_r; try reflexivity.
  all: repeat match goal with
         | H : _ && _ = true |- _ => apply andb_prop in H; destruct H
         | H : (_ <=? _)%nat = true |- _ => apply Nat.leb_le in H
         | H : (_ <? _)%nat = false |- _ => apply Nat.ltb_ge in H
         end.
  all: match goal with
       | |- context [(?a <? ?b)%nat] => destruct (Nat.ltb_spec a b); [| reflexivity]
       end; simpl; try lia.
  all: repeat match goal with
         | |- context [existsb ?f ?l] => destruct (existsb f l)
         | |- context [retryNetworkErrors ?o] => destruct (retryNetworkErrors o)
         | |- context [isNetworkError ?e] => destruct (isNetworkError e)
         end; simpl in *; try reflexivity; try discriminate.
Qed.

(** The loop, entered with retries left and as many calls made as attempts
    completed. *)
Lemma retryLoop_spec env opts left : forall run,
  Good (abortPlan env) run ->
  (calls run + S left = S (maxRetries opts))%nat ->
  let res := retryLoop env opts (S left) (calls run) run in
  Good (abortPlan env) res.2 /\
  (signalAborted (abortPlan env) (List.length (trace res.2)) = true ->
   res.1 = Abrupt abortError \/
   (endsWithFetch (trace res.2) /\
    wouldRetry opts (calls res.2 - 1) (transport env (calls res.2 - 1)) = false)).
Proof.
  induction left as [| left IH]; intros run Hgood Hsum res; subst res;
    pose proof (attempt_spec env opts run Hgood) as Hstep; cbv zeta in Hstep;
    cbn [retryLoop]; unfold bind;
    destruct (tryCatch (tryBlock env opts (calls run)) (catchClause opts (calls run)) run)
      as [[[response |] | error] run1];
    simpl in Hstep; destruct Hstep as (Hg1 & Hnext & Hab1).
  1, 3, 4, 6:
    unfold ret; simpl; (split; [assumption |]); intros Hab;
    destruct (Hab1 Hab) as [Hbad | (Hends & Hcalls & [Hbad | Hlast])];
    [ first [discriminate | left; congruence]
    | discriminate
    | right; split; [assumption |];
      rewrite Hcalls; simpl; rewrite Nat.sub_0_r; assumption ].
  - destruct (Hnext eq_refl) as [_ Hlt]. lia.
  - destruct (Hnext eq_refl) as [Hcalls Hlt].
    rewrite <- Hcalls. apply (IH run1); [assumption | lia].
Qed.

Lemma fetchWithRetry_spec env options :
  let res := fetchWithRetry env options initialRun in
  Good (abortPlan env) res.2 /\
  (signalAborted (abortPlan env) (List.length (trace res.2)) = true ->
   res.1 = Abrupt abortError \/
   (endsWithFetch (trace res.2) /\ lastCallEndsRun env options res.2)).
Proof.
  assert (Hg0 : Good (abortPlan env) initialRun).
  { split; [apply quiet_nil | reflexivity]. }
  unfold fetchWithRetry, bind, throwIfAborted. simpl.
  destruct (signalAborted (abortPlan env) 0) eqn:H0.
  - simpl. split; [assumption |]. intros _. left. reflexivity.
  - destruct options as [| o].
    + unfold fetch. simpl.
      assert (Hg1 : Good (abortPlan env)
                {| trace := [EvFetch]; calls := 1; draws := 0; lastError := Undefined |}).
      { split; simpl; [| reflexivity].
        apply (quiet_snoc _ [] EvFetch); [apply quiet_nil | assumption]. }
      destruct (transport env 0); simpl; (split; [assumption |]);
        intros _; right; (split; [exists []; reflexivity | exact I]).
    + cbv zeta. unfold lastCallEndsRun.
      apply (retryLoop_spec env (mergeOptions DEFAULT_RETRY_OPTIONS o)
               (maxRetries (mergeOptions DEFAULT_RETRY_OPTIONS o)) initialRun);
        [assumption | reflexivity].
Qed.


(** C10.  With the retry argument [false], a call whose signal is already
    aborted throws the abort error without calling the transport; any other
    call makes one transport call and completes as that call does: the
    response is returned as it is, whatever its status, and an error the
    transport throws is thrown on. *)
Theorem retry_disabled_single_call (env : Env) :
  fetchWithRetry env RetryDisabled initialRun =
  match abortPlan env with
  | AbortedBefore => (Abrupt abortError, initialRun)
  | _ => (completionOf (transport env 0),
          {| trace := [EvFetch]; calls := 1; draws := 0; lastError := Undefined |})
  end.
Proof.
  unfold fetchWithRetry, bind, throwIfAborted, fetch. simpl.
  destruct (abortPlan env); simpl; try reflexivity;
    destruct (transport env 0); reflexivity.
Qed.

(** C9, as stated, fails: the abort is requested while the first transport
    call is pending, the call answers 200, and the operation returns that
    response instead of failing with the abort error. *)
Lemma cancellation_counterexample :
  signalAborted (abortPlan okDespiteAbort)
    (List.length (trace (fetchWithRetry okDespiteAbort (RetryWith noOptions) initialRun).2))
  = true /\
  (fetchWithRetry okDespiteAbort (RetryWith noOptions) initialRun).1
  = Normal (Response_new 200 "OK" None).
Proof. split; vm_compute; reflexivity. Qed.

(** C9, amended.  No transport call and no sleep is started once the abort
    has been requested.  If the abort has been requested by the time the
    operation ends, the operation fails with the abort error, unless the
    abort came while a transport call was pending that ends the run by
    itself: the single call when retries are disabled, and otherwise a call
    after which the loop would not go on (a 2xx response, a status that is
    not retryable, no retries left, an error that is not retried); the
    outcome of that call then stands.  A signal aborted before the call
    gives the abort error without any transport call, and an abort
    requested before the first attempt completes leaves at most one
    transport call. *)
Theorem cancellation_checkpoints (env : Env) (options : RetryArg) :
  let res := fetchWithRetry env options initialRun in
  (forall i, (i < List.length (trace res.2))%nat -> signalAborted (abortPlan env) i = false) /\
  (signalAborted (abortPlan env) (List.length (trace res.2)) = true ->
   res.1 = Abrupt abortError \/
   (endsWithFetch (trace res.2) /\ lastCallEndsRun env options res.2)) /\
  (abortPlan env = AbortedBefore -> res.1 = Abrupt abortError /\ calls res.2 = 0%nat) /\
  (abortPlan env = AbortedBefore \/ abortPlan env = AbortDuring 0 ->
   (calls res.2 <= 1)%nat).
Proof.
  intros res.
  destruct (fetchWithRetry_spec env options) as [[Hq Hc] Hl]. fold res in Hq, Hc, Hl.
  split; [exact Hq |]. split; [exact Hl |]. split.
  - intros Hplan. subst res. unfold fetchWithRetry, bind, throwIfAborted.
    rewrite Hplan. simpl. split; reflexivity.
  - intros Hplan. rewrite Hc. unfold fetchCount.
    pose proof (List.filter_length_le isFetch (trace res.2)) as Hle.
    assert (Hlen : (List.length (trace res.2) <= 1)%nat).
    { destruct (le_lt_dec (List.length (trace res.2)) 1) as [Hok | Hbig]; [assumption |].
      specialize (Hq 1%nat Hbig). destruct Hplan as [Hp | Hp]; rewrite Hp in Hq; discriminate. }
    lia.
Qed.

(** The abort test of the suite: the first call answers 500 with retries
    left, so the abort requested during it stops the run after that one
    call. *)
Example abort_stops_retries :
  fetchWithRetry abortAfterFirstAttempt (RetryWith twoRetries) initialRun
  = (Abrupt abortError,
     {| trace := [EvFetch]; calls := 1; draws := 0; lastError := abortError |}).
Proof. vm_compute. reflexivity. Qed.

Lemma cancellation_checkpoints_witness :
  (calls (fetchWithRetry okDespiteAbort (RetryWith noOptions) initialRun).2 <= 1)%nat /\
  ((fetchWithRetry okDespiteAbort (RetryWith noOptions) initialRun).1 = Abrupt abortError \/
   (endsWithFetch (trace (fetchWithRetry okDespiteAbort (RetryWith noOptions) initialRun).2) /\
    lastCallEndsRun okDespiteAbort (RetryWith noOptions)
      (fetchWithRetry okDespiteAbort (RetryWith noOptions) initialRun).2)) /\
  ((fetchWithRetry abortedEarly (RetryWith noOptions) initialRun).1 = Abrupt abortError /\
   calls (fetchWithRetry abortedEarly (RetryWith noOptions) initialRun).2 = 0%nat).
Proof.
  destruct (cancellation_checkpoints okDespiteAbort (RetryWith noOptions))
    as (_ & Hend & _ & Honce).
  destruct (cancellation_checkpoints abortedEarly (RetryWith noOptions))
    as (_ & _ & Hbefore & _).
  split; [apply Honce; right; reflexivity |].
  split; [apply Hend; vm_compute; reflexivity |].
  apply Hbefore. reflexivity.
Defined.

(** C7.  The transport answers every call with status 429 and
    [Retry-After: 30], 429 is a retryable status, [maxRetries] is 0 and the
    signal is not aborted beforehand: [fetchWithRetry] makes one call and
    fails with a [RateLimitError] whose [status] is 429 and whose
    [retryAfterSeconds] is 30. *)
Theorem rate_limit_surfacing (env : Env) (o : RetryOptions) (text : string) :
  abortPlan env <> AbortedBefore ->
  (forall i, transport env i = Returns (tooManyRequests text)) ->
  maxRetries (mergeOptions DEFAULT_RETRY_OPTIONS o) = 0%nat ->
  In 429%nat (retryableStatusCodes (mergeOptions DEFAULT_RETRY_OPTIONS o)) ->
  let error :=
    RateLimitError
      "Rate limit exceeded with status code 429. Check retryAfterSeconds for wait time."
      429 (Some (Num 30)) (tooManyRequests text) in
  fetchWithRetry env (RetryWith o) initialRun =
  (Abrupt error,
   {| trace := [EvFetch]; calls := 1; draws := 0; lastError := error |}).
Proof.
  intros Hplan Htr Hmax Hin error.
  assert (H0 : signalAborted (abortPlan env) 0 = false).
  { destruct (abortPlan env); simpl; [reflexivity | congruence | reflexivity]. }
  unfold fetchWithRetry, bind, throwIfAborted. simpl trace. simpl List.length.
  rewrite H0. cbv zeta.
  remember (mergeOptions DEFAULT_RETRY_OPTIONS o) as opts eqn:Hopts. clear Hopts.
  rewrite Hmax. simpl retryLoop.
  unfold tryCatch, tryBlock, catchClause, bind, throwIfAborted, fetch, setLastError,
    ret, throw.
  simpl. rewrite H0, Htr. simpl.
  match goal with
  | |- context [existsb ?f (retryableStatusCodes opts)] =>
      replace (existsb f (retryableStatusCodes opts)) with true
        by (symmetry; apply existsb_exists; exists 429%nat; split; [assumption | reflexivity])
  end.
  rewrite Hmax. simpl.
  destruct (retryNetworkErrors opts); reflexivity.
Qed.

Lemma rate_limit_surfacing_witness :
  exists message response run,
    fetchWithRetry alwaysTooManyRequests (RetryWith rateLimitTestOptions) initialRun =
    (Abrupt (RateLimitError message 429 (Some (Num 30)) response), run).
Proof.
  eexists _, _, _.
  apply (rate_limit_surfacing alwaysTooManyRequests rateLimitTestOptions "Too Many Requests").
  - discriminate.
  - reflexivity.
  - reflexivity.
  - simpl. left. reflexivity.
Defined.

(** C6 on the code.  Retries are left at their defaults: three of them,
    network errors included.  A transport that fails every call the way the
    [fetch] of a browser does, with [TypeError: Failed to fetch], is called
    four times.  A transport that fails every call the way the [fetch] of
    Node does, with [TypeError: fetch failed], is called once: the error is
    rethrown at once, no retry is made and nothing is slept. *)
Theorem node_network_error_is_not_retried :
  maxRetries (mergeOptions DEFAULT_RETRY_OPTIONS noOptions) = 3%nat /\
  retryNetworkErrors (mergeOptions DEFAULT_RETRY_OPTIONS noOptions) = true /\
  (forall i, transport alwaysOffline i = Throws (TypeError "Failed to fetch")) /\
  calls (fetchWithRetry alwaysOffline (RetryWith noOptions) initialRun).2 = 4%nat /\
  (forall i, transport alwaysRefused i = Throws (TypeError "fetch failed")) /\
  (fetchWithRetry alwaysRefused (RetryWith noOptions) initialRun).1
  = Abrupt (TypeError "fetch failed") /\
  calls (fetchWithRetry alwaysRefused (RetryWith noOptions) initialRun).2 = 1%nat /\
  trace (fetchWithRetry alwaysRefused (RetryWith noOptions) initialRun).2 = [EvFetch].
Proof.
  split; [reflexivity |]. split; [reflexivity |]. split; [intros i; reflexivity |].
  split; [vm_compute; reflexivity |]. split; [intros i; reflexivity |].
  repeat split; vm_compute; reflexivity.
Qed.

End RetryFacts.

(* ===================================================================== *)
(** * Part III: further properties                                         *)
(* ===================================================================== *)

(** Closed facts about sample states hold by evaluation. *)
Ltac by_computation := vm_compute; first [reflexivity | discriminate].

(** ** The cache *)
Module CacheExtra.
Import CacheModel CacheSpec CacheFacts.

Section Extra.

Context {T E Loader : Type}.

Abbreviation EntryMap := (CacheModel.EntryMap T).
Abbreviation Cache := (CacheModel.Cache T E Loader).

(** *** Reads *)

Lemma get_fresh key now fetchFn (c : Cache) entry :
  mapGet key (cache c) = Some entry ->
  (now - timestamp entry < maxAge (options c))%Z ->
  get key now fetchFn c
  = (Resolved (data entry), withCache c (mapSet key (touch entry now) (cache c))).
Proof.
  intros Hget Hfresh. unfold get. rewrite Hget.
  destruct (Z.ltb_spec (now - timestamp entry) (maxAge (options c))); [| lia].
  reflexivity.
Qed.

(** X1.  A read of an entry younger than [maxAge] returns the cached data
    and invokes no loader: no load is started and no record is touched.  In
    the entry map only [lastAccessed] of that key changes, to the time of
    the read; data, timestamp, the other entries and the order of the keys
    stay as they are. *)
Theorem get_fresh_hit (key : string) (now : Z) (fetchFn : Loader) (c : Cache)
    (entry : CacheEntry T) :
  mapGet key (cache c) = Some entry ->
  (now - timestamp entry < maxAge (options c))%Z ->
  let r := get key now fetchFn c in
  r.1 = Resolved (data entry) /\
  loaderCalls r.2 = loaderCalls c /\
  fetchPromises r.2 = fetchPromises c /\
  inflight r.2 = inflight c /\
  mapGet key (cache r.2) = Some (mkEntry (data entry) (timestamp entry) now) /\
  (forall other, other <> key -> mapGet other (cache r.2) = mapGet other (cache c)) /\
  keys (cache r.2) = keys (cache c).
Proof.
  intros Hget Hfresh r. subst r. rewrite (get_fresh _ _ _ _ _ Hget Hfresh).
  simpl. repeat split.
  - apply mapGet_mapSet_eq.
  - intros other Hne. apply mapGet_mapSet_ne. congruence.
  - eapply keys_mapSet_present. exact Hget.
Qed.

(** X2.  A read of a key whose entry is older than both windows, or that has
    no entry, never returns cached data: it hands out the promise of the
    load recorded for the key when there is one, without invoking its
    loader, and otherwise starts a load with its loader.  The entry map is
    left as it is. *)
Theorem get_expired_or_missing_blocks (key : string) (now : Z) (fetchFn : Loader)
    (c : Cache) :
  (forall entry, mapGet key (cache c) = Some entry ->
     (maxAge (options c) <= now - timestamp entry)%Z /\
     (staleWhileRevalidate (options c) <= now - timestamp entry)%Z) ->
  let r := get key now fetchFn c in
  cache r.2 = cache c /\
  match fetchPromises c !! key with
  | Some promise => r = (Awaits promise, c)
  | None =>
      r.1 = Awaits (nextPromise c) /\
      loaderCalls r.2 = loaderCalls c ++ [(key, fetchFn)] /\
      fetchPromises r.2 !! key = Some (nextPromise c) /\
      inflight r.2 !! nextPromise c = Some (mkTask key false)
  end.
Proof.
  intros Hold r. subst r. unfold get.
  assert (Hblock : get key now fetchFn c = getBlocking key fetchFn c).
  { unfold get. destruct (mapGet key (cache c)) as [entry |]; [| reflexivity].
    destruct (Hold entry eq_refl) as [H1 H2].
    destruct (Z.ltb_spec (now - timestamp entry) (maxAge (options c))); [lia |].
    destruct (Z.ltb_spec (now - timestamp entry) (staleWhileRevalidate (options c)));
      [lia | reflexivity]. }
  fold (get key now fetchFn c). rewrite Hblock. unfold getBlocking.
  destruct (fetchPromises c !! key) as [promise |]; simpl.
  - split; reflexivity.
  - split; [reflexivity |]. repeat split; apply lookup_insert_eq.
Qed.

(** *** Loads that settle *)

Lemma runOps_options (ops : list (Op T E Loader)) : forall c : Cache,
  options (runOps ops c) = options c.
Proof.
  induction ops as [| op ops IH]; intros c; simpl; [reflexivity |].
  rewrite IH. apply options_step.
Qed.

Lemma runOps_NoDup (ops : list (Op T E Loader)) : forall c : Cache,
  List.NoDup (keys (cache c)) -> List.NoDup (keys (cache (runOps ops c))).
Proof.
  induction ops as [| op ops IH]; intros c Hnd; simpl; [assumption |].
  apply IH, NoDup_step. assumption.
Qed.

(** Overwriting a key that the cache of a reachable state already holds
    calls for no eviction. *)
Lemma evict_after_overwrite (opts : CacheOptions) (ops : list (Op T E Loader))
    key value (old : CacheEntry T) :
  let c : Cache := runOps ops (newCache opts) in
  mapGet key (cache c) = Some old ->
  evictLRUIfNeeded opts (mapSet key value (cache c)) = mapSet key value (cache c).
Proof.
  intros c Hget. unfold evictLRUIfNeeded.
  destruct (maxEntries opts) as [n |] eqn:Hmax; [| reflexivity].
  destruct (Nat.eqb_spec n 0) as [-> | Hn]; [reflexivity |]. simpl.
  destruct (runOps_invariant ops (newCache opts) n Hmax ltac:(lia)
              (List.NoDup_nil _) ltac:(simpl; lia)) as (_ & _ & Hlen).
  fold c in Hlen. rewrite (length_mapSet_present _ _ _ _ Hget).
  destruct (Nat.leb_spec (List.length (cache c)) n); [reflexivity | lia].
Qed.

(** X3.  In a state the cache reaches from [new Cache(options)], a load
    settles successfully at a clock reading that no access time in the cache
    exceeds.  Whoever awaits the load receives the value; the entry of the
    key is replaced as a whole, value and both time stamps; and a read of
    the key within [maxAge] of the write returns that value without invoking
    a loader. *)
Theorem load_then_read (opts : CacheOptions) (ops : list (Op T E Loader))
    (promise : nat) (task : Task) (value : T) (now now' : Z) (fetchFn : Loader) :
  let c : Cache := runOps ops (newCache opts) in
  inflight c !! promise = Some task ->
  List.Forall (fun kv => (lastAccessed (snd kv) <= now)%Z) (cache c) ->
  let c' := loaderSettles promise (inl value) now c in
  outcomeOf c' (Awaits promise) = Some (Fulfilled value) /\
  mapGet (taskKey task) (cache c') = Some (mkEntry value now now) /\
  ((now' - now < maxAge opts)%Z ->
   (get (taskKey task) now' fetchFn c').1 = Resolved value /\
   loaderCalls (get (taskKey task) now' fetchFn c').2 = loaderCalls c).
Proof.
  intros c Htask Hall c'.
  assert (Hopt : options c = opts) by apply (runOps_options ops (newCache opts)).
  assert (Hentry : mapGet (taskKey task) (cache c') = Some (mkEntry value now now)).
  { subst c'. unfold loaderSettles. rewrite Htask. simpl. rewrite Hopt.
    destruct (mapGet (taskKey task) (cache c)) as [old |] eqn:Hget.
    - subst c. rewrite (evict_after_overwrite opts ops _ _ old Hget).
      apply mapGet_mapSet_eq.
    - rewrite (mapSet_absent _ _ _ Hget). apply evict_keeps_latest; assumption. }
  split; [| split; [exact Hentry |]].
  - subst c'. unfold loaderSettles. rewrite Htask. simpl. apply lookup_insert_eq.
  - intros Hfresh.
    assert (Hopt' : options c' = opts).
    { subst c'. unfold loaderSettles. rewrite Htask. exact Hopt. }
    rewrite (get_fresh _ now' fetchFn c' _ Hentry) by (rewrite Hopt'; exact Hfresh).
    simpl. split; [reflexivity |].
    subst c'. unfold loaderSettles. rewrite Htask. reflexivity.
Qed.

(** X5.  A read in the stale band starts a background refresh that then
    fails.  The read had already returned the stale value; the failure
    leaves the entry as the read left it (old data, old timestamp), deletes
    the record of the key and queues the [.catch] callback of the key
    behind those already queued; the callback, when it runs, finds no
    record of the key and leaves the entries alone. *)
Theorem failed_background_refresh (key : string) (now now' : Z) (fetchFn : Loader)
    (reason : E) (c : Cache) (entry : CacheEntry T) :
  mapGet key (cache c) = Some entry ->
  (maxAge (options c) <= now - timestamp entry < staleWhileRevalidate (options c))%Z ->
  let r := get key now fetchFn c in
  let c' := loaderSettles (nextPromise c) (inr reason) now' r.2 in
  r.1 = Resolved (data entry) /\
  mapGet key (cache c') = Some (mkEntry (data entry) (timestamp entry) now) /\
  fetchPromises c' !! key = None /\
  catchQueue c' = catchQueue c ++ [key] /\
  fetchPromises (runCatchCallback c') !! key = None /\
  cache (runCatchCallback c') = cache c'.
Proof.
  intros Hget [Hge Hlt] r c'. subst c' r. unfold get. rewrite Hget.
  destruct (Z.ltb_spec (now - timestamp entry) (maxAge (options c))); [lia |].
  destruct (Z.ltb_spec (now - timestamp entry) (staleWhileRevalidate (options c))); [| lia].
  unfold loaderSettles. simpl. rewrite lookup_insert_eq. simpl.
  split; [reflexivity |]. split; [apply mapGet_mapSet_eq |].
  split; [apply lookup_delete_eq |]. split; [reflexivity |].
  unfold runCatchCallback. simpl.
  destruct (catchQueue c ++ [key]) as [| k rest]; simpl.
  - split; [apply lookup_delete_eq | reflexivity].
  - split; [| reflexivity].
    destruct (decide (k = key)) as [-> | Hne];
      [apply lookup_delete_eq | rewrite lookup_delete_ne by assumption; apply lookup_delete_eq].
Qed.

(** *** Dropping entries *)

Lemma mapDelete_absent key (m : EntryMap) : mapGet key m = None -> mapDelete key m = m.
Proof.
  induction m as [| [k v] m IH]; simpl; [reflexivity |].
  destruct (String.eqb k key); [discriminate |]. simpl. intros H. f_equal. auto.
Qed.

Lemma mapDelete_twice key (m : EntryMap) : mapDelete key (mapDelete key m) = mapDelete key m.
Proof. apply mapDelete_absent, mapGet_mapDelete_eq. Qed.

(** X6.  [invalidate(key)] deletes the entry and the record of [key] and
    nothing else: the other keys keep their entries and their records, and
    a load in flight stays in flight.  Invalidating twice is the same as
    invalidating once, and invalidating a key that has neither an entry nor
    a record changes nothing. *)
Theorem invalidate_only_that_key (key : string) (c : Cache) :
  has key (invalidate key c) = false /\
  fetchPromises (invalidate key c) !! key = None /\
  inflight (invalidate key c) = inflight c /\
  (forall other, other <> key ->
     mapGet other (cache (invalidate key c)) = mapGet other (cache c) /\
     fetchPromises (invalidate key c) !! other = fetchPromises c !! other) /\
  invalidate key (invalidate key c) = invalidate key c /\
  (mapGet key (cache c) = None -> fetchPromises c !! key = None -> invalidate key c = c).
Proof.
  unfold invalidate, has, mapHas, withFetchPromises, withCache. simpl.
  rewrite mapGet_mapDelete_eq. split; [reflexivity |].
  split; [apply lookup_delete_eq |]. split; [reflexivity |]. split; [| split].
  - intros other Hne. split.
    + apply mapGet_mapDelete_ne. congruence.
    + apply lookup_delete_ne. congruence.
  - rewrite mapDelete_twice.
    rewrite (delete_id (delete key (fetchPromises c)) key) by apply lookup_delete_eq.
    reflexivity.
  - intros Hget Hfp. rewrite (mapDelete_absent _ _ Hget), (delete_id _ _ Hfp).
    destruct c; reflexivity.
Qed.

(** X7.  After [clear()] no key has an entry or a record, so every read,
    whatever the clock, starts a load with its own loader; the loads that
    were in flight stay in flight.  Clearing twice is clearing once. *)
Theorem clear_forgets_everything (key : string) (now : Z) (fetchFn : Loader) (c : Cache) :
  has key (clear c) = false /\
  fetchPromises (clear c) !! key = None /\
  inflight (clear c) = inflight c /\
  (get key now fetchFn (clear c)).1 = Awaits (nextPromise c) /\
  loaderCalls (get key now fetchFn (clear c)).2 = loaderCalls c ++ [(key, fetchFn)] /\
  clear (clear c) = clear c.
Proof.
  unfold clear, has, mapHas, get, getBlocking, withFetchPromises, withCache. simpl.
  rewrite lookup_empty. simpl. repeat split.
Qed.

(** X8.  The [finally] block deletes the record of the key, whichever load
    the record belongs to.  When a load settles while the record of its key
    holds the promise of another, newer load, the record of the newer load
    is deleted although that load is still in flight; if the older load
    failed and the key has no entry, the next read starts yet another
    load. *)
Theorem settling_load_drops_newer_record (older newer : nat) (task newerTask : Task)
    (outcome : T + E) (now now' : Z) (fetchFn : Loader) (c : Cache) :
  inflight c !! older = Some task ->
  inflight c !! newer = Some newerTask ->
  older <> newer ->
  fetchPromises c !! taskKey task = Some newer ->
  let c' := loaderSettles older outcome now c in
  inflight c' !! newer = Some newerTask /\
  fetchPromises c' !! taskKey task = None /\
  (forall reason, outcome = inr reason -> mapGet (taskKey task) (cache c) = None ->
     (get (taskKey task) now' fetchFn c').1 = Awaits (nextPromise c) /\
     loaderCalls (get (taskKey task) now' fetchFn c').2
     = loaderCalls c ++ [(taskKey task, fetchFn)]).
Proof.
  intros Hold Hnew Hne Hfp c'. subst c'. unfold loaderSettles. rewrite Hold.
  destruct outcome as [value | reason]; simpl.
  - split; [rewrite lookup_delete_ne by assumption; exact Hnew |].
    split; [apply lookup_delete_eq |]. intros reason' Heq. discriminate.
  - split; [rewrite lookup_delete_ne by assumption; exact Hnew |].
    split; [apply lookup_delete_eq |]. intros reason' _ Hget.
    unfold get, getBlocking. simpl. rewrite Hget, lookup_delete_eq. simpl.
    split; reflexivity.
Qed.

(** X9.  [refresh] never joins: whatever the cache holds for the key, fresh
    entry or load in flight, it invokes its loader, hands out a new promise
    and puts that promise in the record of the key.  The entries are not
    touched and the loads already in flight stay in flight.  A blocking read
    of the key that follows joins the promise of the refresh. *)
Theorem refresh_never_joins (key : string) (fetchFn : Loader) (c : Cache) :
  let r := refresh key fetchFn c in
  r.1 = Awaits (nextPromise c) /\
  loaderCalls r.2 = loaderCalls c ++ [(key, fetchFn)] /\
  cache r.2 = cache c /\
  fetchPromises r.2 !! key = Some (nextPromise c) /\
  (forall promise, promise <> nextPromise c -> inflight r.2 !! promise = inflight c !! promise) /\
  (forall now other, mapGet key (cache c) = None ->
     get key now other r.2 = (Awaits (nextPromise c), r.2)).
Proof.
  unfold refresh, fetchAndCache. simpl. repeat split.
  - apply lookup_insert_eq.
  - intros promise Hne. apply lookup_insert_ne. congruence.
  - intros now other Hget. unfold get, getBlocking. simpl. rewrite Hget, lookup_insert_eq.
    reflexivity.
Qed.

(** X10.  The eviction only deletes.  Whatever the options and the entries,
    an entry found after the eviction is the entry the key had before it,
    with the same data and the same time stamps. *)
Theorem eviction_only_deletes (opts : CacheOptions) (m : EntryMap) (key : string)
    (entry : CacheEntry T) :
  mapGet key (evictLRUIfNeeded opts m) = Some entry -> mapGet key m = Some entry.
Proof.
  unfold evictLRUIfNeeded.
  destruct (maxEntries opts) as [n |]; [| auto].
  destruct (Nat.eqb n 0); simpl; [auto |].
  destruct (List.length m <=? n)%nat; [auto |].
  set (doomed := List.firstn _ _). fold (deleteAll doomed m).
  destruct (in_dec string_dec key (List.map fst doomed)) as [Hin | Hout].
  - rewrite (mapGet_deleteAll_in doomed m key Hin). discriminate.
  - rewrite (mapGet_deleteAll_out doomed m key Hout). auto.
Qed.

End Extra.

Import CacheSamples.

Lemma get_fresh_hit_witness :
  (get "k" 50%Z 2%nat loadedOnce).1 = Resolved "old" /\
  loaderCalls (get "k" 50%Z 2%nat loadedOnce).2 = loaderCalls loadedOnce.
Proof.
  pose proof (get_fresh_hit "k" 50%Z 2%nat loadedOnce (mkEntry "old" 0%Z 0%Z)
                ltac:(by_computation) ltac:(by_computation)) as H.
  destruct H as (H1 & H2 & _). split; [exact H1 | exact H2].
Defined.

Lemma get_expired_or_missing_blocks_witness :
  cache (get "k" 250%Z 2%nat loadedOnce).2 = cache loadedOnce.
Proof.
  assert (Hold : forall entry : CacheEntry string,
             mapGet "k" (cache loadedOnce) = Some entry ->
             (maxAge (options loadedOnce) <= 250 - timestamp entry)%Z /\
             (staleWhileRevalidate (options loadedOnce) <= 250 - timestamp entry)%Z).
  { intros entry Hget. vm_compute in Hget. inversion Hget; subst entry.
    split; by_computation. }
  exact (proj1 (get_expired_or_missing_blocks "k" 250%Z 2%nat loadedOnce Hold)).
Defined.

Lemma load_then_read_witness :
  mapGet "k" (cache (loaderSettles 0 (inl "v") 10%Z
                       (runOps [OpGet "k" 0%Z 1%nat] testCache)))
  = Some (mkEntry "v" 10%Z 10%Z).
Proof.
  pose proof (load_then_read (T:=string) (E:=string) (mkOptions 100 200 (Some 1000%nat))
                [OpGet "k" 0%Z 1%nat] 0%nat (mkTask "k" false) "v" 10%Z 50%Z 2%nat
                ltac:(by_computation) ltac:(vm_compute; constructor)) as H.
  destruct H as (_ & H2 & _). exact H2.
Defined.

Lemma failed_background_refresh_witness :
  (get "k" 150%Z 2%nat loadedOnce).1 = Resolved "old" /\
  catchQueue (loaderSettles (nextPromise loadedOnce) (inr "boom") 160%Z
                (get "k" 150%Z 2%nat loadedOnce).2)
  = catchQueue loadedOnce ++ ["k"].
Proof.
  pose proof (failed_background_refresh "k" 150%Z 160%Z 2%nat "boom" loadedOnce
                (mkEntry "old" 0%Z 0%Z) ltac:(by_computation)
                ltac:(split; by_computation)) as H.
  destruct H as (H1 & _ & _ & H4 & _). split; [exact H1 | exact H4].
Defined.

Lemma settling_load_drops_newer_record_witness :
  inflight (loaderSettles 0 (inr "boom") 10%Z overlappingLoads) !! 1%nat
  = Some (mkTask "k" false) /\
  fetchPromises (loaderSettles 0 (inr "boom") 10%Z overlappingLoads) !! "k" = None.
Proof.
  pose proof (settling_load_drops_newer_record 0%nat 1%nat (mkTask "k" false)
                (mkTask "k" false) (inr "boom") 10%Z 20%Z 3%nat overlappingLoads
                ltac:(by_computation) ltac:(by_computation) ltac:(discriminate)
                ltac:(by_computation)) as H.
  destruct H as (H1 & H2 & _). split; [exact H1 | exact H2].
Defined.

Lemma invalidate_only_that_key_witness :
  has "k" (invalidate "k" loadedOnce) = false /\
  invalidate "j" loadedOnce = loadedOnce.
Proof.
  pose proof (invalidate_only_that_key "k" loadedOnce) as Hk.
  pose proof (invalidate_only_that_key "j" loadedOnce) as Hj.
  destruct Hk as (Hk & _). destruct Hj as (_ & _ & _ & _ & _ & Hj).
  split; [exact Hk |].
  exact (Hj ltac:(by_computation) ltac:(by_computation)).
Defined.

Lemma refresh_never_joins_witness :
  get "k" 5%Z 4%nat (refresh "k" 3%nat pendingLoad).2
  = (Awaits (nextPromise pendingLoad), (refresh "k" 3%nat pendingLoad).2).
Proof.
  pose proof (refresh_never_joins "k" 3%nat pendingLoad) as H.
  destruct H as (_ & _ & _ & _ & _ & H).
  exact (H 5%Z 4%nat ltac:(by_computation)).
Defined.

Lemma eviction_only_deletes_witness :
  mapGet "C" (evictLRUIfNeeded lruOptions fourEntries)
  = Some (mkEntry "value3" 300%Z 300%Z) /\
  mapGet "C" fourEntries = Some (mkEntry "value3" 300%Z 300%Z).
Proof.
  assert (H : mapGet "C" (evictLRUIfNeeded lruOptions fourEntries)
              = Some (mkEntry "value3" 300%Z 300%Z)) by by_computation.
  split; [exact H |].
  exact (eviction_only_deletes lruOptions fourEntries "C" _ H).
Defined.

End CacheExtra.

(** ** [fetchWithRetry] *)
Module RetryExtra.
Import Js Errors Utilities RetrySpec RetrySchedule.

Ltac run_attempt :=
  unfold tryCatch, tryBlock, catchClause, bind, throwIfAborted, sleep, fetch, random,
    setLastError, ret, throw.

Local Opaque String.append showNat.

Ltac abort_check :=
  match goal with
  | |- context [if signalAborted ?p ?n then _ else _] =>
      destruct (signalAborted p n) eqn:?; simpl
  end.

Ltac done_run := let H := fresh in intros H; inversion H; subst; clear H; simpl.

Lemma attempt_outcome env opts attempt run c run' :
  tryCatch (tryBlock env opts attempt) (catchClause opts attempt) run = (c, run') ->
  match c with
  | Normal (Some response) =>
      calls run' = S (calls run) /\
      transport env (calls run) = Returns response /\ ok response = true
  | Normal None => (attempt < maxRetries opts)%nat
  | Abrupt error =>
      error = abortError \/
      (calls run' = S (calls run) /\
       match transport env (calls run) with
       | Throws thrown => error = thrown
       | Returns response => ok response = false /\ error = finalError opts response
       end)
  end.
Proof.
  run_attempt.
  abort_check; [done_run; left; reflexivity |].
  destruct (0 <? attempt)%nat eqn:Hpos; simpl.
  1: abort_check; [done_run; left; reflexivity |].
  all: destruct (transport env (calls run)) as [response | thrown] eqn:Htr; simpl.
  2, 4: destruct (isAbortError thrown); simpl; [done_run; right; split; reflexivity |];
        destruct (negb (retryNetworkErrors opts) || negb (isNetworkError thrown)); simpl;
        [done_run; right; split; reflexivity |];
        destruct (attempt <? maxRetries opts)%nat eqn:Hlt; simpl; done_run;
        [apply Nat.ltb_lt; assumption | right; split; reflexivity].
  all: destruct (ok response) eqn:Hok; simpl; [done_run; auto |].
  all: destruct (retryNetworkErrors opts); simpl.
  all: unfold finalError, statusError, rateLimitError, exhaustedError.
  all: destruct (negb (existsb (Nat.eqb (status response)) (retryableStatusCodes opts)));
         simpl; [done_run; right; auto |].
  all: destruct (maxRetries opts <=? attempt)%nat eqn:Hle; simpl.
  all: destruct (status response =? 429)%nat eqn:H429; simpl.
  all: try (done_run; right; split; [reflexivity | split; reflexivity]).
  all: destruct (attempt <? maxRetries opts)%nat eqn:Hlt; simpl.
  all: try (done_run; right; split; [reflexivity | split; reflexivity]).
  all: try (apply Nat.leb_gt in Hle; apply Nat.ltb_ge in Hlt; lia).
  all: destruct (truthyHeader (retryAfterHeader response)) as [retryAfter |]; simpl;
         [destruct (retryAfterWait retryAfter) as [waitTime |]; simpl;
          [abort_check; [done_run; left; reflexivity |];
           abort_check; [done_run; left; reflexivity |] | ] |];
         done_run; apply Nat.ltb_lt; assumption.
Qed.
Lemma retryLoop_outcome env opts left : forall attempt run c run',
  (attempt + left = maxRetries opts)%nat ->
  retryLoop env opts (S left) attempt run = (c, run') ->
  match c with
  | Normal response =>
      (1 <= calls run')%nat /\
      transport env (calls run' - 1) = Returns response /\ ok response = true
  | Abrupt error =>
      error = abortError \/
      ((1 <= calls run')%nat /\
       match transport env (calls run' - 1) with
       | Throws thrown => error = thrown
       | Returns response => ok response = false /\ error = finalError opts response
       end)
  end.
Proof.
  induction left as [| left IH]; intros attempt run c run' Hsum;
    cbn [retryLoop]; unfold bind;
    destruct (tryCatch (tryBlock env opts attempt) (catchClause opts attempt) run)
      as [[[response |] | error] run1] eqn:Hstep;
    apply attempt_outcome in Hstep.
  1, 3, 4, 6: unfold ret; intros [= <- <-].
  - destruct Hstep as (Hcalls & Htr & Hok). rewrite Hcalls. simpl. rewrite Nat.sub_0_r.
    split; [lia | split; assumption].
  - destruct Hstep as [-> | (Hcalls & Htr)]; [left; reflexivity | right].
    rewrite Hcalls. simpl. rewrite Nat.sub_0_r. split; [lia | assumption].
  - destruct Hstep as (Hcalls & Htr & Hok). rewrite Hcalls. simpl. rewrite Nat.sub_0_r.
    split; [lia | split; assumption].
  - destruct Hstep as [-> | (Hcalls & Htr)]; [left; reflexivity | right].
    rewrite Hcalls. simpl. rewrite Nat.sub_0_r. split; [lia | assumption].
  - lia.
  - apply IH. lia.
Qed.

Lemma fetchWithRetry_outcome env o c run :
  fetchWithRetry env (RetryWith o) initialRun = (c, run) ->
  match c with
  | Normal response =>
      (1 <= calls run)%nat /\
      transport env (calls run - 1) = Returns response /\ ok response = true
  | Abrupt error =>
      error = abortError \/
      ((1 <= calls run)%nat /\
       match transport env (calls run - 1) with
       | Throws thrown => error = thrown
       | Returns response =>
           ok response = false /\
           error = finalError (mergeOptions DEFAULT_RETRY_OPTIONS o) response
       end)
  end.
Proof.
  unfold fetchWithRetry, bind, throwIfAborted.
  destruct (signalAborted (abortPlan env) (List.length (trace initialRun)));
    [intros [= <- <-]; left; reflexivity |].
  intros Hrun. apply retryLoop_outcome in Hrun; [exact Hrun | reflexivity].
Qed.

(** X11.  With retries enabled, a response that [fetchWithRetry] returns is
    ok, and it is the response of the last transport call of the run: a
    response that is not ok is never handed to the caller. *)
Theorem returned_response_is_ok (env : Env) (o : RetryOptions) (response : Response)
    (run : Run) :
  fetchWithRetry env (RetryWith o) initialRun = (Normal response, run) ->
  ok response = true /\ (1 <= calls run)%nat /\
  transport env (calls run - 1) = Returns response.
Proof.
  intros Hrun. apply fetchWithRetry_outcome in Hrun.
  destruct Hrun as (Hcalls & Htr & Hok). auto.
Qed.

(** X13.  In the iteration of the last attempt ([attempt >= maxRetries]) the
    [try] block and its [catch] clause return a response or throw: both
    ways on to another iteration are guarded by [attempt < maxRetries]. *)
Theorem last_attempt_never_continues (env : Env) (opts : RequiredRetryOptions)
    (attempt : nat) (run : Run) :
  (maxRetries opts <= attempt)%nat ->
  fst (tryCatch (tryBlock env opts attempt) (catchClause opts attempt) run) <> Normal None.
Proof.
  intros Hlast Hnone.
  destruct (tryCatch (tryBlock env opts attempt) (catchClause opts attempt) run)
    as [c run'] eqn:Hstep.
  apply attempt_outcome in Hstep. simpl in Hnone. subst c. lia.
Qed.

(** One iteration of a run that is never aborted. *)
Lemma attempt_step env opts attempt run :
  abortPlan env = NoAbort ->
  exists run',
    tryCatch (tryBlock env opts attempt) (catchClause opts attempt) run
    = (if wouldRetry opts attempt (transport env (calls run)) then Normal None
       else match settle opts (transport env (calls run)) with
            | Normal response => Normal (Some response)
            | Abrupt error => Abrupt error
            end,
       run') /\
    trace run'
    = trace run
      ++ (if (0 <? attempt)%nat
          then [EvSleep (calculateBackoff (attempt - 1) opts (mathRandom env (draws run)))]
          else [])
      ++ [EvFetch] ++ retryAfterSleep opts attempt (transport env (calls run)) /\
    calls run' = S (calls run) /\
    draws run' = (if (0 <? attempt)%nat then S (draws run) else draws run).
Proof.
  intros Hplan. run_attempt.
  unfold retryAfterSleep, retryAfterOf, wouldRetry, settle, finalError, statusError,
    rateLimitError, exhaustedError.
  rewrite Hplan. simpl.
  destruct (0 <? attempt)%nat; simpl;
    destruct (transport env (calls run)) as [response | thrown]; simpl.
  all: try match goal with
         | r : Response |- _ =>
             destruct (ok r); simpl;
             [ rewrite ?andb_false_r
             | destruct (existsb (Nat.eqb (status r)) (retryableStatusCodes opts)); simpl;
               destruct (retryNetworkErrors opts); simpl;
               destruct (Nat.leb_spec (maxRetries opts) attempt);
               destruct (Nat.ltb_spec attempt (maxRetries opts)); try lia;
               destruct (status r =? 429)%nat; simpl;
               destruct (truthyHeader (retryAfterHeader r)) as [retryAfter |]; simpl;
               try destruct (retryAfterWait retryAfter); simpl ]
         | e : Thrown |- _ =>
             destruct (isAbortError e); simpl;
             destruct (retryNetworkErrors opts); simpl;
             destruct (isNetworkError e); simpl;
             destruct (attempt <? maxRetries opts)%nat; simpl
         end.
  all: eexists; (split; [reflexivity |]); simpl; rewrite <- ?app_assoc; simpl; auto.
Qed.

Lemma schedule_step env opts attempt run run' :
  draws run = (attempt - 1)%nat ->
  calls run = attempt ->
  trace run = schedule env opts attempt ->
  trace run'
  = trace run
    ++ (if (0 <? attempt)%nat
        then [EvSleep (calculateBackoff (attempt - 1) opts (mathRandom env (draws run)))]
        else [])
    ++ [EvFetch] ++ retryAfterSleep opts attempt (transport env (calls run)) ->
  trace run' = schedule env opts (S attempt).
Proof.
  intros Hdraws Hcalls Htrace ->. rewrite Hdraws, Hcalls, Htrace. reflexivity.
Qed.

Lemma retryLoop_schedule env opts :
  abortPlan env = NoAbort ->
  forall j attempt run left,
    calls run = attempt -> draws run = (attempt - 1)%nat ->
    trace run = schedule env opts attempt ->
    (forall i, (attempt <= i < attempt + j)%nat ->
       wouldRetry opts i (transport env i) = true) ->
    wouldRetry opts (attempt + j) (transport env (attempt + j)) = false ->
    (j <= left)%nat ->
    exists run',
      retryLoop env opts (S left) attempt run
      = (settle opts (transport env (attempt + j)), run') /\
      trace run' = schedule env opts (S (attempt + j)) /\
      calls run' = S (attempt + j).
Proof.
  intros Hplan.
  induction j as [| j IH]; intros attempt run left Hcalls Hdraws Htrace Hretry Hlast Hleft;
    destruct (attempt_step env opts attempt run Hplan) as (run1 & Hstep & Htr1 & Hc1 & Hd1);
    pose proof (schedule_step env opts attempt run run1 Hdraws Hcalls Htrace Htr1) as Hsched;
    rewrite Hcalls in Hstep, Hc1.
  - rewrite Nat.add_0_r in *. rewrite Hlast in Hstep.
    exists run1. cbn [retryLoop]. unfold bind. rewrite Hstep.
    destruct (settle opts (transport env attempt)); auto.
  - rewrite (Hretry attempt ltac:(lia)) in Hstep.
    destruct left as [| left]; [lia |].
    destruct (IH (S attempt) run1 left Hc1) as (run' & Hloop & Htr' & Hc');
      try assumption.
    + rewrite Hd1. destruct attempt; simpl; lia.
    + intros i Hi. apply Hretry. lia.
    + replace (S attempt + j)%nat with (attempt + S j)%nat by lia. assumption.
    + lia.
    + exists run'.
      replace (attempt + S j)%nat with (S attempt + j)%nat by lia.
      split; [| split; assumption].
      rewrite <- Hloop.
      change (retryLoop env opts (S (S left)) attempt run)
        with ((let* r := tryCatch (tryBlock env opts attempt) (catchClause opts attempt) in
               match r with
               | Some response => ret response
               | None => retryLoop env opts (S left) (S attempt)
               end) run).
      unfold bind at 1. rewrite Hstep. reflexivity.
Qed.

(** X15.  The wait a [Retry-After] header asks for does not replace the
    backoff.  When the first response is retried and carries a usable
    [Retry-After], and the second transport call ends the run, the awaits
    of the run are: the first call, the sleep of the header, the backoff
    sleep of the first retry, the second call. *)
Theorem retry_after_then_backoff (env : Env) (o : RetryOptions) (waitTime : Q) :
  let opts := mergeOptions DEFAULT_RETRY_OPTIONS o in
  abortPlan env = NoAbort ->
  wouldRetry opts 0 (transport env 0%nat) = true ->
  retryAfterOf (transport env 0%nat) = Some waitTime ->
  wouldRetry opts 1 (transport env 1%nat) = false ->
  trace (fetchWithRetry env (RetryWith o) initialRun).2
  = [EvFetch; EvSleep waitTime;
     EvSleep (calculateBackoff 0 opts (mathRandom env 0%nat)); EvFetch].
Proof.
  intros opts Hplan Hfirst Hwait Hsecond.
  destruct (retryLoop_schedule env opts Hplan 1%nat 0%nat initialRun (maxRetries opts)
              eq_refl eq_refl eq_refl) as (run' & Hloop & Htr & Hc); try assumption.
  { intros i Hi. replace i with 0%nat by lia. assumption. }
  { unfold wouldRetry in Hfirst. apply andb_prop in Hfirst. destruct Hfirst as [Hlt _].
    apply Nat.ltb_lt in Hlt. lia. }
  unfold fetchWithRetry, bind, throwIfAborted. rewrite Hplan. simpl.
  fold opts. simpl in Hloop. rewrite Hloop. simpl. rewrite Htr.
  simpl. unfold retryAfterSleep, backoffWait. rewrite Hfirst, Hwait, Hsecond. reflexivity.
Qed.

Local Transparent String.append showNat.

Lemma returned_response_is_ok_witness :
  transport recovers
    (calls (fetchWithRetry recovers (RetryWith noOptions) initialRun).2 - 1)
  = Returns (Response_new 200 "OK" None).
Proof.
  pose proof (returned_response_is_ok recovers noOptions (Response_new 200 "OK" None)
                (fetchWithRetry recovers (RetryWith noOptions) initialRun).2
                ltac:(by_computation)) as H.
  destruct H as (_ & _ & H). exact H.
Defined.

Lemma last_attempt_never_continues_witness :
  fst (tryCatch (tryBlock recovers DEFAULT_RETRY_OPTIONS 3)
         (catchClause DEFAULT_RETRY_OPTIONS 3) initialRun)
  <> Normal None.
Proof.
  exact (last_attempt_never_continues recovers DEFAULT_RETRY_OPTIONS 3 initialRun
           ltac:(vm_compute; lia)).
Defined.

Lemma retry_after_then_backoff_witness :
  trace (fetchWithRetry asksToWait (RetryWith noOptions) initialRun).2
  = [EvFetch; EvSleep 2000%Q;
     EvSleep (calculateBackoff 0 (mergeOptions DEFAULT_RETRY_OPTIONS noOptions) (1 # 2)%Q);
     EvFetch].
Proof.
  exact (retry_after_then_backoff asksToWait noOptions 2000%Q eq_refl
           ltac:(by_computation) ltac:(by_computation) ltac:(by_computation)).
Defined.

End RetryExtra.

(** ** The [Retry-After] header *)
Module HeaderExtra.
Import Js Errors Utilities.

Lemma digitsFrom_of_uint_acc (d : Decimal.uint) : forall acc : nat,
  digitsFrom (Some (Z.of_nat acc)) (NilEmpty.string_of_uint d)
  = Some (Z.of_nat (Nat.of_uint_acc d acc)).
Proof.
  induction d; intros acc; simpl; [reflexivity | ..];
    rewrite <- IHd; do 2 f_equal; rewrite Nat.tail_mul_spec; lia.
Qed.

Lemma to_uint_not_Nil (n : nat) : Nat.to_uint n <> Decimal.Nil.
Proof.
  intros H. pose proof (Unsigned.of_to n) as Hn. rewrite H in Hn.
  subst n. discriminate.
Qed.

Lemma parseInt_showNat (n : nat) : parseInt (showNat n) = Num (Z.of_nat n).
Proof.
  unfold showNat. pose proof (Unsigned.of_to n) as Hn.
  pose proof (to_uint_not_Nil n) as Hnil.
  destruct (Nat.to_uint n) as [| d | d | d | d | d | d | d | d | d | d];
    [congruence | ..];
    unfold parseInt; simpl;
    match goal with
    | |- context [digitsFrom (Some ?z) _] =>
        let k := eval vm_compute in (Z.to_nat z) in
        change z with (Z.of_nat k)
    end;
    rewrite digitsFrom_of_uint_acc; do 2 f_equal; exact Hn.
Qed.

Lemma parseInt_not_a_number (c : ascii) (rest : string) :
  isWhitespace c = false -> digitValue c = None ->
  c <> "-"%char -> c <> "+"%char ->
  parseInt (String c rest) = NaN.
Proof.
  intros Hw Hd Hm Hp. unfold parseInt. simpl. rewrite Hw.
  destruct c as [[] [] [] [] [] [] [] []];
    try discriminate; try reflexivity; congruence.
Qed.

(** X17.  How [Retry-After] is read.  The constructor of [RateLimitError]
    leaves [retryAfterSeconds] unset when the header is missing or empty;
    for a header that holds the decimal digits of an [n] below 2^53 it is
    the number [n]; for a header that starts with neither white space, a
    sign nor a digit (an HTTP date) it is [NaN].  [fetchWithRetry] waits
    [n * 1000] ms for the digits of a positive [n], as long as the product
    does not exceed 2^53, and does not wait at all for a zero or for such a
    date. *)
Theorem retry_after_header_reading (message text : string) (st n : nat)
    (c : ascii) (rest : string) :
  RateLimitError_new message (Response_new st text None)
  = RateLimitError message st None (Response_new st text None) /\
  RateLimitError_new message (Response_new st text (Some ""))
  = RateLimitError message st None (Response_new st text (Some "")) /\
  ((Z.of_nat n < 2 ^ 53)%Z ->
   RateLimitError_new message (Response_new st text (Some (showNat n)))
   = RateLimitError message st (Some (Num (Z.of_nat n)))
       (Response_new st text (Some (showNat n)))) /\
  ((Z.of_nat n * 1000 <= 2 ^ 53)%Z ->
   retryAfterWait (showNat n)
   = (if (n =? 0)%nat then None else Some (inject_Z (Z.of_nat n * 1000)))) /\
  (isWhitespace c = false -> digitValue c = None -> c <> "-"%char -> c <> "+"%char ->
   RateLimitError_new message (Response_new st text (Some (String c rest)))
   = RateLimitError message st (Some NaN) (Response_new st text (Some (String c rest))) /\
   retryAfterWait (String c rest) = None).
Proof.
  split; [reflexivity |]. split; [reflexivity |]. split; [| split].
  - intros _. unfold RateLimitError_new. simpl.
    assert (Hne : showNat n <> "").
    { unfold showNat. pose proof (to_uint_not_Nil n).
      destruct (Nat.to_uint n); [congruence | discriminate ..]. }
    destruct (showNat n) eqn:Hs; [congruence |].
    simpl. rewrite <- Hs, parseInt_showNat. reflexivity.
  - intros _. unfold retryAfterWait. rewrite parseInt_showNat.
    destruct (Nat.eqb_spec n 0) as [-> | Hn]; [reflexivity |].
    destruct (Z.ltb_spec 0 (Z.of_nat n * 1000)); [reflexivity | lia].
  - intros Hw Hd Hm Hp. unfold RateLimitError_new, retryAfterWait. simpl.
    rewrite (parseInt_not_a_number c rest Hw Hd Hm Hp). split; reflexivity.
Qed.

Lemma retry_after_header_reading_witness :
  retryAfterWait (showNat 30) = Some (inject_Z 30000) /\
  RateLimitError_new "limited"
    (Response_new 429 "Too Many Requests" (Some "Wed, 21 Oct 2015 07:28:00 GMT"))
  = RateLimitError "limited" 429 (Some NaN)
      (Response_new 429 "Too Many Requests" (Some "Wed, 21 Oct 2015 07:28:00 GMT")) /\
  retryAfterWait "Wed, 21 Oct 2015 07:28:00 GMT" = None.
Proof.
  pose proof (retry_after_header_reading "limited" "Too Many Requests" 429 30 "W"
                "ed, 21 Oct 2015 07:28:00 GMT") as H.
  destruct H as (_ & _ & _ & Hwait & Hdate).
  split; [exact (Hwait ltac:(vm_compute; discriminate)) |].
  exact (Hdate eq_refl eq_refl ltac:(discriminate) ltac:(discriminate)).
Defined.

End HeaderExtra.

(** ** The hooks *)
Module HooksExtra.
Import Errors Utilities Hooks ClientSamples.

Section Extra.

Context {Request : Type}.

Lemma runInSequence_app {A : Type} (hooks1 hooks2 : list (A -> Completion A)) :
  forall result,
    runInSequence (hooks1 ++ hooks2) result
    = match runInSequence hooks1 result with
      | Normal next => runInSequence hooks2 next
      | Abrupt error => Abrupt error
      end.
Proof.
  induction hooks1 as [| hook hooks1 IH]; intros result; simpl; [reflexivity |].
  destruct (hook result); [apply IH | reflexivity].
Qed.

Lemma runInSequence_push {A : Type} (hooks : list (A -> Completion A))
    (hook : option (A -> Completion A)) result :
  runInSequence (pushIfPresent hooks hook) result
  = match runInSequence hooks result with
    | Normal next =>
        match hook with
        | Some h => h next
        | None => Normal next
        end
    | Abrupt error => Abrupt error
    end.
Proof.
  destruct hook as [h |]; simpl.
  - rewrite runInSequence_app. destruct (runInSequence hooks result); [| reflexivity].
    simpl. destruct (h a); reflexivity.
  - destruct (runInSequence hooks result); reflexivity.
Qed.

(** X18.  Hooks run in registration order.  After [register], the hooks
    registered before run first and the new hook runs on what they hand on:
    a [beforeFetch] or [afterFetch] hook is not run at all when an earlier
    one throws; an [onError] hook always runs, on the error the earlier ones
    left.  A kind that the registered object leaves out runs as before.
    After [clear] nothing that was registered runs. *)
Theorem hooks_run_in_registration_order (hooks : ClientHooks Request)
    (m : HooksManager Request) (request : Request) (response : Response) (error : Thrown) :
  runBeforeFetchHooks (register hooks m) request
  = match runBeforeFetchHooks m request with
    | Normal next =>
        match beforeFetch hooks with
        | Some hook => hook next
        | None => Normal next
        end
    | Abrupt thrown => Abrupt thrown
    end /\
  runAfterFetchHooks (register hooks m) response
  = match runAfterFetchHooks m response with
    | Normal next =>
        match afterFetch hooks with
        | Some hook => hook next
        | None => Normal next
        end
    | Abrupt thrown => Abrupt thrown
    end /\
  runOnErrorHooks (register hooks m) error
  = match onError hooks with
    | Some hook => onErrorStep (runOnErrorHooks m error) hook
    | None => runOnErrorHooks m error
    end /\
  runBeforeFetchHooks (clear (register hooks m)) request = Normal request /\
  runAfterFetchHooks (clear (register hooks m)) response = Normal response /\
  runOnErrorHooks (clear (register hooks m)) error = error.
Proof.
  unfold runBeforeFetchHooks, runAfterFetchHooks, runOnErrorHooks, register, clear.
  cbn [beforeFetchHooks afterFetchHooks onErrorHooks].
  unfold BeforeFetchHook, AfterFetchHook.
  rewrite !runInSequence_push.
  split; [reflexivity |]. split; [reflexivity |]. split; [| auto].
  destruct (onError hooks) as [hook |]; simpl; [| reflexivity].
  apply List.fold_left_app.
Qed.

Lemma onErrorStep_instance (error : Thrown) (hook : OnErrorHook) :
  instanceOfError error = true -> instanceOfError (onErrorStep error hook) = true.
Proof.
  intros He. unfold onErrorStep.
  destruct (hook error) as [result | thrown];
    [destruct (instanceOfError result) eqn:H | destruct (instanceOfError thrown) eqn:H];
    assumption.
Qed.

Lemma runOnErrorHooks_instance (m : HooksManager Request) (error : Thrown) :
  instanceOfError error = true -> instanceOfError (runOnErrorHooks m error) = true.
Proof.
  unfold runOnErrorHooks. generalize dependent error.
  induction (onErrorHooks m) as [| hook hooks IH]; intros error He; simpl; [assumption |].
  apply IH, onErrorStep_instance, He.
Qed.

(** X19.  [runOnErrorHooks] hands back an [Error] whenever it is given one:
    what a hook returns or throws replaces the current error only when it
    is itself an [Error].  When every hook returns [undefined], as a hook
    that only logs does, the error comes back unchanged. *)
Theorem error_hooks_keep_an_error (m : HooksManager Request) (error : Thrown) :
  instanceOfError error = true ->
  instanceOfError (runOnErrorHooks m error) = true /\
  (List.Forall (fun hook => forall e, hook e = Normal Undefined) (onErrorHooks m) ->
   runOnErrorHooks m error = error).
Proof.
  intros He. split; [apply runOnErrorHooks_instance, He |].
  unfold runOnErrorHooks. clear He. generalize dependent error.
  induction (onErrorHooks m) as [| hook hooks IH]; intros error Hall; simpl;
    [reflexivity |].
  inversion Hall as [| ? ? Hhook Hrest]; subst.
  unfold onErrorStep at 2. rewrite Hhook. simpl. apply IH, Hrest.
Qed.

End Extra.

Lemma hooks_run_in_registration_order_witness :
  runBeforeFetchHooks
    (register (mkClientHooks (Some (appendToUrl "&b=2")) None None) sampleManager)
    ("item", None)
  = Normal ("item?a=1&b=2", None).
Proof.
  pose proof (hooks_run_in_registration_order
                (mkClientHooks (Some (appendToUrl "&b=2")) None None) sampleManager
                ("item", None) (Response_new 200 "OK" None) Undefined) as H.
  destruct H as (H & _). rewrite H. reflexivity.
Defined.

Lemma error_hooks_keep_an_error_witness :
  runOnErrorHooks sampleManager (TypeError "Failed to fetch") = TypeError "Failed to fetch".
Proof.
  pose proof (error_hooks_keep_an_error sampleManager (TypeError "Failed to fetch")
                eq_refl) as H.
  destruct H as (_ & H). apply H.
  repeat constructor.
Defined.

End HooksExtra.

(** ** [clientFetch] *)
Module ClientExtra.
Import Errors Utilities RetrySchedule Hooks Client ClientSamples.

Section Extra.

Context {Url Signal Fields : Type}.
Variable noFields : Fields.

Abbreviation Request := (Client.Request (Url:=Url) (Signal:=Signal) (Fields:=Fields)).
Abbreviation RequestInit := (Client.RequestInit Signal Fields).
Abbreviation ClientOptions := (Client.ClientOptions Url Signal Fields).

Variable world : Url -> option RequestInit -> Env.

Lemma toError_instance (error : Thrown) : instanceOfError (toError error) = true.
Proof. unfold toError. destruct (instanceOfError error) eqn:H; [exact H | reflexivity]. Qed.

(** X20.  Whatever the hooks, the transport and the options, what
    [clientFetch] throws is an [Error]: a thrown value that is not one is
    wrapped before the [onError] hooks see it, and the hooks cannot replace
    it by something that is not an [Error]. *)
Theorem clientFetch_throws_an_error (options : ClientOptions) (m : HooksManager Request)
    (url : Url) (init : option RequestInit) (error : Thrown) :
  clientFetch noFields world options m url init = Abrupt error ->
  instanceOfError error = true.
Proof.
  unfold clientFetch.
  destruct (dispatch world options m url (mergeSignal noFields options init));
    [discriminate |].
  intros [= <-]. apply HooksExtra.runOnErrorHooks_instance, toError_instance.
Qed.

(** X21.  A custom [fetch] is called once and is not retried: its response
    goes to the [afterFetch] hooks as it is, ok or not, and neither the
    retry options nor the default transport play a part.  Without a custom
    [fetch] and with retries enabled, a response reaches the [afterFetch]
    hooks only if it is ok. *)
Theorem custom_fetch_is_not_retried (options : ClientOptions) (m : HooksManager Request)
    (url url' : Url) (init init' : option RequestInit) :
  runBeforeFetchHooks m (url, mergeSignal noFields options init) = Normal (url', init') ->
  (forall _fetch response,
     customFetch options = Some _fetch ->
     _fetch url' init' = Normal response ->
     clientFetch noFields world options m url init
     = match runAfterFetchHooks m response with
       | Normal result => Normal result
       | Abrupt error => Abrupt (runOnErrorHooks m (toError error))
       end) /\
  (forall o response,
     customFetch options = None -> retry options = RetryWith o ->
     afterFetchHooks m = [] ->
     clientFetch noFields world options m url init = Normal response ->
     ok response = true).
Proof.
  intros Hbefore. split.
  - intros _fetch response Hcustom Hresponse.
    unfold clientFetch, dispatch. rewrite Hbefore, Hcustom, Hresponse. reflexivity.
  - intros o response Hcustom Hretry Hafter.
    unfold clientFetch, dispatch, runAfterFetchHooks.
    rewrite Hbefore, Hcustom, Hretry, Hafter.
    destruct (fetchWithRetry (world url' init') (RetryWith o) initialRun)
      as [[r | e] run] eqn:Hrun; simpl; [| discriminate].
    intros [= <-]. apply RetryExtra.fetchWithRetry_outcome in Hrun.
    destruct Hrun as (_ & _ & Hok). exact Hok.
Qed.

(** X22.  When a [beforeFetch] hook throws, no request is made: the result
    is the thrown value, made an [Error] and passed through the [onError]
    hooks, whatever the transport or the custom [fetch] would have
    answered; the [afterFetch] hooks do not run. *)
Theorem failing_before_hook_skips_the_request (options : ClientOptions)
    (m : HooksManager Request) (url : Url) (init : option RequestInit) (error : Thrown) :
  runBeforeFetchHooks m (url, mergeSignal noFields options init) = Abrupt error ->
  clientFetch noFields world options m url init
  = Abrupt (runOnErrorHooks m (toError error)).
Proof.
  intros Hbefore. unfold clientFetch, dispatch. rewrite Hbefore. reflexivity.
Qed.

End Extra.

Lemma clientFetch_throws_an_error_witness :
  clientFetch tt alwaysUnavailable defaultOptions sampleManager "item" None
  = Abrupt (Error "Request failed with status 503 after 3 retries") /\
  instanceOfError (Error "Request failed with status 503 after 3 retries") = true.
Proof.
  assert (H : clientFetch tt alwaysUnavailable defaultOptions sampleManager "item" None
              = Abrupt (Error "Request failed with status 503 after 3 retries"))
    by by_computation.
  split; [exact H |].
  exact (clientFetch_throws_an_error tt alwaysUnavailable defaultOptions sampleManager
           "item" None _ H).
Defined.

Lemma custom_fetch_is_not_retried_witness :
  clientFetch tt alwaysOk customOptions sampleManager "item" None
  = Normal (Response_new 503 "Service Unavailable" None).
Proof.
  pose proof (custom_fetch_is_not_retried tt alwaysOk customOptions sampleManager
                "item" "item?a=1" None None eq_refl) as H.
  destruct H as (H & _).
  exact (H (fun _ _ => Normal (Response_new 503 "Service Unavailable" None))
           (Response_new 503 "Service Unavailable" None) eq_refl eq_refl).
Defined.

Lemma failing_before_hook_skips_the_request_witness :
  clientFetch tt alwaysOk defaultOptions
    (register (mkClientHooks (Some (fun _ => Abrupt Undefined)) None None) sampleManager)
    "item" None
  = Abrupt (Error "undefined").
Proof.
  exact (failing_before_hook_skips_the_request tt alwaysOk defaultOptions
           (register (mkClientHooks (Some (fun _ => Abrupt Undefined)) None None)
              sampleManager)
           "item" None Undefined eq_refl).
Defined.

End ClientExtra.

(** ** [getItemWithComments] *)
Module TreeExtra.
Import TreeSpec TreeShape DeepThread.
Import Errors Utilities Api Scheduling SchedulingFacts.

Section Extra.

Variable getItem : Z -> Completion HackerNewsItem.

Lemma materialize_item left itemId t :
  materialize getItem left itemId = Normal t -> getItem itemId = Normal (treeItem t).
Proof.
  destruct left as [| left]; simpl; destruct (getItem itemId) as [item | error];
    try discriminate.
  - intros [= <-]. reflexivity.
  - destruct (noKids item); intros [= <-]; reflexivity.
Qed.


Lemma replies_are_live_kids left (kidIds : list Z) :
  List.map treeItem
    (List.filter (fun reply => negb (truthy (deleted (treeItem reply)))
                               && negb (truthy (dead (treeItem reply))))
       (List.map (fun kidId => match materialize getItem left kidId with
                               | Normal reply => reply
                               | Abrupt _ => placeholder kidId
                               end) kidIds))
  = liveKids getItem kidIds.
Proof.
  induction kidIds as [| kidId kidIds IH]; simpl; [reflexivity |].
  destruct (materialize getItem left kidId) as [reply | error] eqn:Hkid.
  - rewrite (materialize_item _ _ _ Hkid). fold (live (treeItem reply)).
    destruct (live (treeItem reply)); simpl; rewrite IH; reflexivity.
  - destruct (getItem kidId) as [item | e] eqn:Hitem.
    + destruct (TreeFacts.materialize_resolved getItem left kidId item Hitem) as [r Hr].
      congruence.
    + simpl. exact IH.
Qed.

Lemma fold_right_filter {A : Type} (P : A -> Prop) (keep : A -> bool) (l : list A) :
  List.fold_right (fun x acc => P x /\ acc) True l ->
  List.fold_right (fun x acc => P x /\ acc) True (List.filter keep l).
Proof.
  induction l as [| x l IH]; simpl; [auto |].
  intros [Hx Hl]. destruct (keep x); simpl; auto.
Qed.

Lemma depth_filter (bound : nat) (keep : HackerNewsCommentTree -> bool)
    (l : list HackerNewsCommentTree) :
  List.Forall (fun reply => (depth reply <= bound)%nat) l ->
  (List.fold_right (fun reply acc => Nat.max (S (depth reply)) acc) 0%nat
     (List.filter keep l) <= S bound)%nat.
Proof.
  induction 1 as [| x l Hx Hl IH]; simpl; [lia |].
  destruct (keep x); simpl; lia.
Qed.

Lemma placeholder_depth kidId : depth (placeholder kidId) = 0%nat.
Proof. reflexivity. Qed.

Lemma materialize_depth left : forall itemId t,
  materialize getItem left itemId = Normal t -> (depth t <= left)%nat.
Proof.
  induction left as [| left IH]; intros itemId t; simpl;
    destruct (getItem itemId) as [item | error]; try discriminate.
  - intros [= <-]. simpl. lia.
  - destruct (noKids item); intros [= <-]; [simpl; lia |].
    cbn [depth]. apply depth_filter.
    apply List.Forall_forall. intros reply Hin.
    apply List.in_map_iff in Hin. destruct Hin as (kidId & <- & _).
    destruct (materialize getItem left kidId) as [r | e] eqn:Hkid.
    + apply (IH kidId). exact Hkid.
    + rewrite placeholder_depth. lia.
Qed.

(** X24.  The returned tree is at most [maxDepth - currentDepth] levels
    deep: no reply is fetched below the depth limit. *)
Theorem tree_depth_is_bounded (itemId : Z) (options : TreeOptions)
    (t : HackerNewsCommentTree) :
  getItemWithComments getItem itemId options = Normal t ->
  (depth t <= default DEFAULT_MAX_COMMENT_DEPTH (maxDepth options)
              - default 0%nat (currentDepth options))%nat.
Proof. unfold getItemWithComments. cbv zeta. apply materialize_depth. Qed.

Lemma placeholder_faithful kidId : faithful getItem (placeholder kidId).
Proof. simpl. auto. Qed.

Lemma materialize_faithful left : forall itemId t,
  materialize getItem left itemId = Normal t -> faithful getItem t.
Proof.
  induction left as [| left IH]; intros itemId t; simpl;
    destruct (getItem itemId) as [item | error]; try discriminate.
  - intros [= <-]. simpl. auto.
  - destruct (noKids item); intros [= <-]; [simpl; auto |].
    cbn [faithful]. split.
    + right. apply replies_are_live_kids.
    + apply fold_right_filter.
      induction (default [] (kids item)) as [| kidId kidIds IHk]; simpl; [exact I |].
      split; [| exact IHk].
      destruct (materialize getItem left kidId) as [r | e] eqn:Hkid.
      * apply (IH kidId). exact Hkid.
      * apply placeholder_faithful.
Qed.

(** X25.  The replies of the returned tree.  While the depth limit is not
    reached at the root, the replies carry, in the order of the kids,
    exactly the items of the kids that can be fetched and are neither
    deleted nor dead: a kid that fails is left out, and so is its
    placeholder.  The same holds at every node of the tree that has
    replies. *)
Theorem replies_follow_the_kids (itemId : Z) (options : TreeOptions)
    (t : HackerNewsCommentTree) :
  getItemWithComments getItem itemId options = Normal t ->
  faithful getItem t /\
  ((default 0%nat (currentDepth options)
    < default DEFAULT_MAX_COMMENT_DEPTH (maxDepth options))%nat ->
   List.map treeItem (treeReplies t)
   = liveKids getItem (default [] (kids (treeItem t)))).
Proof.
  unfold getItemWithComments. cbv zeta. intros Ht.
  split; [exact (materialize_faithful _ _ _ Ht) |].
  intros Hdepth.
  destruct (default DEFAULT_MAX_COMMENT_DEPTH (maxDepth options)
            - default 0%nat (currentDepth options))%nat as [| left] eqn:Hleft; [lia |].
  simpl in Ht. destruct (getItem itemId) as [item | error]; [| discriminate].
  destruct (noKids item) eqn:Hkids; injection Ht as <-; simpl.
  - unfold noKids in Hkids. destruct (kids item) as [[| k ks] |]; try discriminate;
      reflexivity.
  - apply replies_are_live_kids.
Qed.


(** X26.  A limiter with [limit] slots never lets the call resolve to a
    tree whose replies nest more than [limit] levels deep: a job holds its
    slot while it waits for the jobs of its kids, so a job on level
    [limit + 1] is never started.  When the recursion yields such a tree,
    the promise of the call is never settled, in whatever order the events
    come; every event uses up one of the finitely many that a state has
    before it; and a state is reached that no event can leave, with the
    promise still pending. *)
Theorem deep_threads_never_settle (limit : nat) (itemId : Z) (options : TreeOptions)
    (t : HackerNewsCommentTree) :
  getItemWithComments getItem itemId options = Normal t ->
  (limit < depth t)%nat ->
  (forall c result,
     Reaches getItem (Some limit) (call itemId options) c -> c <> CallSettled result) /\
  (forall c c',
     List.In c' (steps getItem (Some limit) c) ->
     (callEventsLeft getItem c' < callEventsLeft getItem c)%nat) /\
  (exists c,
     Reaches getItem (Some limit) (call itemId options) c /\ Stuck getItem (Some limit) c).
Proof.
  intros Hvalue Hdeep.
  assert (Hnever : forall c result,
             Reaches getItem (Some limit) (call itemId options) c ->
             c <> CallSettled result).
  { intros c result Hreach ->.
    pose proof (reaches_result getItem (Some limit) _ _ Hreach) as Hresult.
    pose proof (reaches_depth getItem (Some limit) limit _ _ eq_refl Hreach) as Hdepth.
    simpl in Hresult. fold (getItemWithComments getItem itemId options) in Hresult.
    rewrite Hvalue in Hresult. subst result.
    simpl in Hdepth. specialize (Hdepth ltac:(lia)). lia. }
  split; [exact Hnever |].
  split; [exact (steps_events getItem (Some limit)) |].
  destruct (reaches_end getItem (Some limit) _ (call itemId options) (Nat.le_refl _))
    as (c & Hreach & Hend).
  exists c. split; [exact Hreach |]. split; [exact Hend |].
  intros result. exact (Hnever c result Hreach).
Qed.

End Extra.

Lemma tree_depth_is_bounded_witness :
  (depth (Tree story [Tree (comment 2) []; Tree (comment 4) []]) <= 25 - 0)%nat.
Proof.
  exact (tree_depth_is_bounded brokenSecondKid 1 (mkTreeOptions None None None)
           (Tree story [Tree (comment 2) []; Tree (comment 4) []]) eq_refl).
Defined.

Lemma replies_follow_the_kids_witness :
  List.map treeItem (treeReplies (Tree story [Tree (comment 2) []; Tree (comment 4) []]))
  = liveKids brokenSecondKid [2; 3; 4]%Z.
Proof.
  pose proof (replies_follow_the_kids brokenSecondKid 1 (mkTreeOptions None None None)
                (Tree story [Tree (comment 2) []; Tree (comment 4) []]) eq_refl) as H.
  destruct H as (_ & H). apply H. unfold DEFAULT_MAX_COMMENT_DEPTH. simpl. lia.
Defined.


Lemma deep_threads_never_settle_witness :
  exists c,
    Reaches nested (Some 5%nat) (call 1 (mkTreeOptions None None None)) c /\
    Stuck nested (Some 5%nat) c.
Proof.
  assert (Hvalue : getItemWithComments nested 1 (mkTreeOptions None None None)
                   = Normal (Tree story
                       [Tree (answered 2 1 5)
                          [Tree (answered 5 2 6)
                             [Tree (answered 6 5 7)
                                [Tree (answered 7 6 8)
                                   [Tree (answered 8 7 9) [Tree (comment 9) []]]]]];
                        Tree (comment 4) []]))
    by (vm_compute; reflexivity).
  apply (deep_threads_never_settle nested 5 1 (mkTreeOptions None None None) _ Hvalue).
  vm_compute. lia.
Defined.

End TreeExtra.
